(** * fix_all_auth_tokens.py: the auth-token migration script

    A shallow embedding of [src/fix_all_auth_tokens.py] and the properties
    of its two regular-expression rewrites, of the per-file operation
    [fix_file] and of the driver [main].

    Python strings are sequences of Unicode code points: a text is a list
    of code points, each an [N].  The two patterns of the script use only
    literal characters and the class-plus [\s+]; the matcher below is the
    backtracking matcher of [re] restricted to that fragment, and [sub] is
    [re.sub] (leftmost, non-overlapping, every match replaced). *)

From Stdlib Require Import String Ascii.
From Stdlib Require Import List NArith Arith Bool Lia.
Import ListNotations.

(** ** Texts *)

Module Text.

Definition char := N.
Definition text := list char.

Definition char_eqb (a b : char) : bool := N.eqb a b.

(** ASCII literals of the source, as code points. *)
Definition str (s : string) : text :=
  map N_of_ascii (list_ascii_of_string s).

Definition LF : char := 10%N.

(** Lines of a literal joined by newlines (a triple-quoted string). *)
Fixpoint unlines (ls : list text) : text :=
  match ls with
  | [] => []
  | [l] => l
  | l :: ls' => l ++ LF :: unlines ls'
  end.

Fixpoint text_eqb (a b : text) : bool :=
  match a, b with
  | [], [] => true
  | x :: a', y :: b' => char_eqb x y && text_eqb a' b'
  | _, _ => false
  end.

(** [s.startswith(p)] *)
Fixpoint prefixb (p s : text) : bool :=
  match p, s with
  | [], _ => true
  | c :: p', x :: s' => char_eqb c x && prefixb p' s'
  | _ :: _, [] => false
  end.

(** [p in s] *)
Fixpoint occursb (p s : text) : bool :=
  prefixb p s ||
  match s with
  | [] => false
  | _ :: s' => occursb p s'
  end.

(** [str(n)] for a non-negative integer. *)
Definition digit (d : nat) : char := (48 + N.of_nat d)%N.

Fixpoint decimal_fuel (fuel n : nat) (acc : text) : text :=
  match fuel with
  | O => acc
  | S fuel' =>
      let acc' := digit (n mod 10) :: acc in
      if n / 10 =? 0 then acc' else decimal_fuel fuel' (n / 10) acc'
  end.

Definition decimal (n : nat) : text := decimal_fuel (S n) n [].

End Text.
Import Text.

(** ** The fragment of [re] the script uses *)

Module Re.

(** [\s] on a [str] pattern: [Py_UNICODE_ISSPACE]. *)
Definition is_space (c : char) : bool :=
  ((9 <=? c) && (c <=? 13) ||
   (28 <=? c) && (c <=? 32) ||
   (c =? 133) || (c =? 160) || (c =? 5760) ||
   (8192 <=? c) && (c <=? 8202) ||
   (c =? 8232) || (c =? 8233) || (c =? 8239) || (c =? 8287) ||
   (c =? 12288))%N.

Inductive item :=
| Chr (c : char)       (* a literal character, escaped or not *)
| SpacePlus.           (* \s+ *)

Definition pattern := list item.

Definition lit (t : text) : pattern := map Chr t.

(** The rest of a [\s+] whose first character is already taken: as many
    more whitespace characters as possible, given back one at a time until
    the continuation [k] matches. *)
Fixpoint greedy (k : text -> option nat) (s : text) : option nat :=
  match s with
  | x :: s' =>
      if is_space x then
        match greedy k s' with
        | Some n => Some (S n)
        | None => k s
        end
      else k s
  | [] => k s
  end.

(** [match_here p s]: the length of the match of [p] at the start of [s]
    that the backtracking matcher finds first. *)
Fixpoint match_here (p : pattern) : text -> option nat :=
  match p with
  | [] => fun _ => Some O
  | Chr c :: p' =>
      fun s =>
        match s with
        | x :: s' => if char_eqb x c then option_map S (match_here p' s') else None
        | [] => None
        end
  | SpacePlus :: p' =>
      fun s =>
        match s with
        | x :: s' => if is_space x then option_map S (greedy (match_here p') s') else None
        | [] => None
        end
  end.

(** [re.search(p, s) is not None] *)
Fixpoint search (p : pattern) (s : text) : bool :=
  match match_here p s with
  | Some _ => true
  | None => match s with [] => false | _ :: s' => search p s' end
  end.

(** [re.sub(p, repl, s)] with a replacement free of backslashes and group
    references.  [skip] counts the characters of the current match still
    to be dropped.  A match of length zero (which only the empty pattern
    has in this fragment) inserts [repl] and keeps the character. *)
Fixpoint sub_from (p : pattern) (repl : text) (skip : nat) (s : text) : text :=
  match s with
  | [] =>
      match skip, match_here p [] with
      | O, Some _ => repl
      | _, _ => []
      end
  | x :: s' =>
      match skip with
      | S k => sub_from p repl k s'
      | O =>
          match match_here p s with
          | Some (S n) => repl ++ sub_from p repl n s'
          | Some O => repl ++ x :: sub_from p repl O s'
          | None => x :: sub_from p repl O s'
          end
      end
  end.

Definition sub (p : pattern) (repl : text) (s : text) : text :=
  sub_from p repl O s.

End Re.
Import Re.

(** ** The two rules of [fix_file] *)

Definition token_stmt : text := str "const token = localStorage.getItem('auth_token');".
Definition guard_open : text := str "if (!token) {".
Definition guard_redirect : text := str "window.location.href = '/';".
Definition guard_return : text := str "return;".
Definition guard_close : text := str "}".

Definition pattern1 : pattern :=
  lit token_stmt ++ SpacePlus ::
  lit guard_open ++ SpacePlus ::
  lit guard_redirect ++ SpacePlus ::
  lit guard_return ++ SpacePlus ::
  lit guard_close.

Definition replacement1 : text :=
  unlines
    [ str "// Get Supabase session token";
      str "    const { data: { session } } = await window.supabase.auth.getSession();";
      str "    if (!session) {";
      str "        window.location.href = '/index.html';";
      str "        return;";
      str "    }";
      str "    const token = session.access_token;" ].

Definition pattern2 : pattern := lit token_stmt.

Definition replacement2 : text :=
  unlines
    [ str "const { data: { session } } = await window.supabase.auth.getSession();";
      str "    const token = session?.access_token;" ].

Definition rule_a (s : text) : text := sub pattern1 replacement1 s.
Definition rule_b (s : text) : text := sub pattern2 replacement2 s.

(** The transformation of [fix_file]: rule A, then rule B. *)
Definition rewrite (s : text) : text := rule_b (rule_a s).

(** ** Files, console and exceptions *)

Module Os.

(** What sits at a path.  The content of a file is the text that
    [open(path, 'r', encoding='utf-8').read()] returns for it. *)
Inductive node :=
| File (content : text) (writable : bool)
| NoAccess          (* exists, but cannot be opened for reading *)
| BadEncoding.      (* exists and opens, but is not valid UTF-8 *)

Definition filesystem := text -> option node.

Inductive event :=
| EOpenW (path : text)                  (* open(path, 'w') *)
| EWrite (path : text) (content : text) (* f.write(content) *)
| EPrint (line : text).                 (* print(line) *)

Record world := World { files : filesystem; trace : list event }.

Inductive exn :=
| IOFailure (path : text)
| DecodeFailure (path : text).

Inductive result (A : Type) :=
| Ok (a : A)
| Raise (e : exn).
Arguments Ok {A} a.
Arguments Raise {A} e.

(** Computations: the world is threaded through, and an exception keeps
    the effects that happened before it. *)
Definition M (A : Type) := world -> result A * world.

Definition ret {A} (a : A) : M A := fun w => (Ok a, w).

Definition bind {A B} (m : M A) (f : A -> M B) : M B :=
  fun w =>
    match m w with
    | (Ok a, w') => f a w'
    | (Raise e, w') => (Raise e, w')
    end.

Definition raise {A} (e : exn) : M A := fun w => (Raise e, w).

Definition log (e : event) : M unit :=
  fun w => (Ok tt, World (files w) (trace w ++ [e])).

Definition update (fs : filesystem) (path : text) (n : node) : filesystem :=
  fun q => if text_eqb q path then Some n else fs q.

(** [os.path.exists] *)
Definition path_exists (path : text) : M bool :=
  fun w => (Ok (match files w path with Some _ => true | None => false end), w).

(** [os.path.join] of two components (POSIX). *)
Definition SLASH : char := 47%N.

Definition path_join (a b : text) : text :=
  if prefixb [SLASH] b then b
  else
    match rev a with
    | [] => b
    | d :: _ => if char_eqb d SLASH then a ++ b else a ++ SLASH :: b
    end.

(** [with open(path, 'r', encoding='utf-8') as f: f.read()] *)
Definition read_text (path : text) : M text :=
  fun w =>
    match files w path with
    | Some (File content _) => (Ok content, w)
    | Some BadEncoding => (Raise (DecodeFailure path), w)
    | Some NoAccess | None => (Raise (IOFailure path), w)
    end.

(** [with open(path, 'w', encoding='utf-8') as f: f.write(content)] *)
Definition write_text (path : text) (content : text) : M unit :=
  fun w =>
    let w1 := World (files w) (trace w ++ [EOpenW path]) in
    match files w path with
    | Some (File _ true) | None =>
        (Ok tt, World (update (files w) path (File content true))
                      (trace w1 ++ [EWrite path content]))
    | Some _ => (Raise (IOFailure path), w1)
    end.

Definition print (line : text) : M unit := log (EPrint line).

End Os.
Import Os.

Notation "x <- m ;; k" := (bind m (fun x => k))
  (at level 61, m at next level, right associativity).
Notation "m ;;; k" := (bind m (fun _ => k))
  (at level 61, right associativity).

(** ** The script *)

Definition JS_DIR : text := str "frontend/assets/js".

Definition files_to_fix : list text :=
  [ str "billings.js";
    str "chatbot-ai.js";
    str "device-settings.js";
    str "flow-builder.js";
    str "flow-manager.js";
    str "packages.js";
    str "profile.js";
    str "set-stage.js";
    str "whatsapp-bot.js" ].

Definition CHECK_MARK : char := 10003%N.   (* U+2713 *)
Definition BALLOT_X : char := 10007%N.     (* U+2717 *)

Definition msg_fixed (filepath : text) : text :=
  CHECK_MARK :: str " Fixed " ++ filepath.
Definition msg_no_changes (filepath : text) : text :=
  str "- No changes needed in " ++ filepath.
Definition msg_not_found (filepath : text) : text :=
  BALLOT_X :: str " File not found: " ++ filepath.
Definition msg_summary (fixed_count : nat) : text :=
  LF :: str "Fixed " ++ decimal fixed_count ++ str " files".

Definition fix_file (filepath : text) : M bool :=
  content <- read_text filepath ;;
  let original_content := content in
  let content := sub pattern1 replacement1 content in
  let content := sub pattern2 replacement2 content in
  if negb (text_eqb content original_content) then
    write_text filepath content ;;;
    print (msg_fixed filepath) ;;;
    ret true
  else
    print (msg_no_changes filepath) ;;;
    ret false.

(** The [for] loop of [main], from any point of the list on. *)
Fixpoint main_loop (names : list text) (fixed_count : nat) : M nat :=
  match names with
  | [] => ret fixed_count
  | filename :: rest =>
      let filepath := path_join JS_DIR filename in
      found <- path_exists filepath ;;
      if found then
        fixed <- fix_file filepath ;;
        main_loop rest (if fixed then S fixed_count else fixed_count)
      else
        print (msg_not_found filepath) ;;;
        main_loop rest fixed_count
  end.

Definition main : M unit :=
  fixed_count <- main_loop files_to_fix 0 ;;
  print (msg_summary fixed_count).

(** ** Vocabulary of the statements *)

(** Two texts clash when neither is a prefix of the other: whatever
    follows them, neither starts with the other. *)
Definition clash (a b : text) : bool :=
  negb (prefixb a b) && negb (prefixb b a).

(** The non-empty suffixes of a text, longest first. *)
Fixpoint suffixes (s : text) : list text :=
  match s with
  | [] => []
  | _ :: s' => s :: suffixes s'
  end.

Definition proper_suffixes (s : text) : list text := tl (suffixes s).

(** No proper suffix of [P] starts [P] again. *)
Definition unbordered (P : text) : bool :=
  forallb (fun b => clash b P) (proper_suffixes P).

(** No proper suffix of [P] can be continued into, or continue, [R]. *)
Definition apart (P R : text) : bool :=
  forallb (fun b => clash b R) (proper_suffixes P).

(** [P] neither occurs in [R] nor starts inside [R] and runs past its end. *)
Definition closed_under (P R : text) : bool :=
  forallb (fun b => clash b P) (suffixes R).

(** What a trace shows on the console, which files it opened for writing
    and what it wrote. *)
Fixpoint console (tr : list event) : list text :=
  match tr with
  | [] => []
  | EPrint line :: tr' => line :: console tr'
  | _ :: tr' => console tr'
  end.

Fixpoint opens (tr : list event) : list text :=
  match tr with
  | [] => []
  | EOpenW path :: tr' => path :: opens tr'
  | _ :: tr' => opens tr'
  end.

Fixpoint writes (tr : list event) : list (text * text) :=
  match tr with
  | [] => []
  | EWrite path content :: tr' => (path, content) :: writes tr'
  | _ :: tr' => writes tr'
  end.

Definition node_eqb (a b : node) : bool :=
  match a, b with
  | File c w, File c' w' => text_eqb c c' && Bool.eqb w w'
  | NoAccess, NoAccess => true
  | BadEncoding, BadEncoding => true
  | _, _ => false
  end.

(** The path holds something else in [fs'] than in [fs]. *)
Definition changed (fs fs' : filesystem) (path : text) : bool :=
  match fs path, fs' path with
  | Some a, Some b => negb (node_eqb a b)
  | None, None => false
  | _, _ => true
  end.

Definition paths (names : list text) : list text :=
  map (path_join JS_DIR) names.

(** What [pattern1] asks for after the token statement. *)
Definition guard : pattern :=
  SpacePlus ::
  lit guard_open ++ SpacePlus ::
  lit guard_redirect ++ SpacePlus ::
  lit guard_return ++ SpacePlus ::
  lit guard_close.

(** The guarded idiom with the four gaps that [pattern1] leaves open. *)
Definition idiom (w1 w2 w3 w4 : text) : text :=
  token_stmt ++ w1 ++ guard_open ++ w2 ++ guard_redirect ++ w3 ++
  guard_return ++ w4 ++ guard_close.

Definition all_space (ws : text) : bool := forallb is_space ws.

Definition starts_nonspace (t : text) : bool :=
  match t with
  | x :: _ => negb (is_space x)
  | [] => true
  end.

(** The example text of the specification. *)
Definition example_idiom : text :=
  unlines
    [ str "const token = localStorage.getItem('auth_token');";
      str "    if (!token) {";
      str "        window.location.href = '/';";
      str "        return;";
      str "    }" ].

(** The three notices of the loop, and the one that counts. *)
Definition per_file_line (line : text) : Prop :=
  exists path,
    line = msg_fixed path \/ line = msg_no_changes path \/
    line = msg_not_found path.

Definition fixed_line (line : text) : bool :=
  match line with
  | c :: _ => char_eqb c CHECK_MARK
  | [] => false
  end.

Fixpoint distinct (l : list text) : bool :=
  match l with
  | [] => true
  | x :: l' => negb (existsb (text_eqb x) l') && distinct l'
  end.

(** Two small file systems to run the script on: in the first every
    listed file that exists can be read and written; in the second the
    third listed file is not valid UTF-8. *)
Definition sample_fs : filesystem :=
  update
    (update (fun _ => None)
       (str "frontend/assets/js/billings.js") (File example_idiom true))
    (str "frontend/assets/js/profile.js") (File (str "let x = 1;") true).

Definition broken_fs : filesystem :=
  update
    (update
       (update (fun _ => None)
          (str "frontend/assets/js/billings.js") (File example_idiom true))
       (str "frontend/assets/js/device-settings.js") BadEncoding)
    (str "frontend/assets/js/flow-builder.js") (File token_stmt true).

(** What a run that gets through the list makes of the file system, what
    it prints for a listed name, and which listed files it can cope with. *)
Definition migrated (n : node) : node :=
  match n with
  | File c wr => File (rewrite c) wr
  | other => other
  end.

Definition listed (names : list text) (q : text) : bool :=
  existsb (text_eqb q) (paths names).

Definition migrate (names : list text) (fs : filesystem) : filesystem :=
  fun q => if listed names q then option_map migrated (fs q) else fs q.

Definition needs_fix (fs : filesystem) (name : text) : bool :=
  match fs (path_join JS_DIR name) with
  | Some (File c _) => negb (text_eqb (rewrite c) c)
  | _ => false
  end.

Definition reports (fs : filesystem) (name : text) (line : text) : Prop :=
  match fs (path_join JS_DIR name) with
  | None => line = msg_not_found (path_join JS_DIR name)
  | Some (File c _) =>
      line = if text_eqb (rewrite c) c
             then msg_no_changes (path_join JS_DIR name)
             else msg_fixed (path_join JS_DIR name)
  | Some _ => False
  end.

Definition healthy (fs : filesystem) (name : text) : bool :=
  match fs (path_join JS_DIR name) with
  | None => true
  | Some (File c wr) => wr || text_eqb (rewrite c) c
  | Some _ => false
  end.

(** What holds after the loop has gone through [names] from count
    [count] and world [w] and ended with count [c] in world [w']. *)
Definition loop_post (names : list text) (count : nat) (w : world)
    (c : nat) (w' : world) : Prop :=
  (forall q, files w' q = migrate names (files w) q) /\
  c = count + length (filter (needs_fix (files w)) names) /\
  (exists lines,
     console (trace w') = console (trace w) ++ lines /\
     Forall2 (reports (files w)) names lines) /\
  (exists ws,
     writes (trace w') = writes (trace w) ++ ws /\
     length ws = length (filter (needs_fix (files w)) names)).


(** [P] starts at no position of [s], whatever follows [s]. *)
Definition tail_free (P s : text) : Prop :=
  forall u d, s = u ++ d -> d <> [] ->
  forall rest, prefixb P (d ++ rest) = false.

(** * Properties *)

(** ** Texts *)

Lemma char_eqb_eq (a b : char) : char_eqb a b = true <-> a = b.
Proof. apply N.eqb_eq. Qed.

Lemma text_eqb_eq (a b : text) : text_eqb a b = true <-> a = b.
Proof.
  revert b; induction a as [|x a IH]; intros [|y b]; simpl;
    try (split; [discriminate | congruence]); try tauto.
  rewrite andb_true_iff, char_eqb_eq, IH. split.
  - intros [-> ->]; reflexivity.
  - intros E; injection E; auto.
Qed.

Lemma text_eqb_refl (a : text) : text_eqb a a = true.
Proof. apply text_eqb_eq; reflexivity. Qed.

Lemma text_eqb_neq (a b : text) : text_eqb a b = false <-> a <> b.
Proof.
  rewrite <- text_eqb_eq. destruct (text_eqb a b); split; congruence.
Qed.

Lemma prefixb_spec (p s : text) :
  prefixb p s = true <-> exists r, s = p ++ r.
Proof.
  revert s; induction p as [|c p IH]; intros s; simpl.
  - split; eauto.
  - destruct s as [|x s].
    + split; [discriminate | intros [r E]; discriminate].
    + rewrite andb_true_iff, char_eqb_eq, IH. split.
      * intros [-> [r ->]]; eauto.
      * intros [r E]; injection E as -> ->; eauto.
Qed.

Lemma prefixb_app (p s : text) : prefixb p (p ++ s) = true.
Proof. apply prefixb_spec; eauto. Qed.

Lemma prefixb_skipn (p s : text) :
  prefixb p s = true -> s = p ++ skipn (length p) s.
Proof.
  intros H; apply prefixb_spec in H as [r ->].
  rewrite skipn_app, skipn_all, Nat.sub_diag; reflexivity.
Qed.

Lemma prefixb_comparable (a b u : text) :
  prefixb a (b ++ u) = true -> prefixb a b = true \/ prefixb b a = true.
Proof.
  revert b; induction a as [|c a IH]; intros b; simpl; auto.
  destruct b as [|d b]; simpl; auto.
  rewrite !andb_true_iff, !char_eqb_eq.
  intros [-> H]. destruct (IH _ H); auto.
Qed.

Lemma clash_sym (a b : text) : clash a b = clash b a.
Proof. unfold clash; apply andb_comm. Qed.

Lemma clash_app (a b u : text) :
  clash a b = true -> prefixb a (b ++ u) = false.
Proof.
  unfold clash; rewrite andb_true_iff, !negb_true_iff; intros [Hab Hba].
  destruct (prefixb a (b ++ u)) eqn:E; auto.
  apply prefixb_comparable in E as [E|E]; congruence.
Qed.

Lemma clash_app_both (a b u v : text) :
  clash a b = true -> prefixb (a ++ u) (b ++ v) = false.
Proof.
  intros H. destruct (prefixb (a ++ u) (b ++ v)) eqn:E; auto.
  apply prefixb_spec in E as [r E].
  rewrite <- (clash_app a b (v)) ; auto.
  symmetry; apply prefixb_spec. exists (u ++ r). rewrite E, app_assoc; reflexivity.
Qed.

Lemma In_suffixes (a b : text) : b <> [] -> In b (suffixes (a ++ b)).
Proof.
  intros Hb; induction a as [|x a IH]; simpl; auto.
  destruct b; [congruence | simpl; auto].
Qed.

Lemma In_proper_suffixes (a b : text) :
  a <> [] -> b <> [] -> In b (proper_suffixes (a ++ b)).
Proof.
  destruct a as [|x a]; [congruence|]; intros _ Hb.
  unfold proper_suffixes; simpl. apply In_suffixes; assumption.
Qed.

Lemma occursb_cons (p : text) (x : char) (s : text) :
  occursb p (x :: s) = prefixb p (x :: s) || occursb p s.
Proof. reflexivity. Qed.

Lemma occursb_false_head (p s : text) :
  occursb p s = false -> prefixb p s = false.
Proof.
  destruct s; simpl; intros H; apply orb_false_iff in H; tauto.
Qed.

Lemma occursb_app_true (p l r : text) : occursb p (l ++ p ++ r) = true.
Proof.
  induction l as [|x l IH].
  - simpl app. destruct (p ++ r) eqn:E; simpl; rewrite <- E, prefixb_app; reflexivity.
  - simpl app. rewrite occursb_cons, IH. apply orb_true_r.
Qed.

Lemma occursb_spec (p s : text) :
  occursb p s = true <-> exists l r, s = l ++ p ++ r.
Proof.
  split.
  - induction s as [|x s IH]; simpl.
    + rewrite orb_false_r. intros H; apply prefixb_spec in H as [r ->].
      exists [], r; reflexivity.
    + intros H; apply orb_true_iff in H as [H|H].
      * apply prefixb_spec in H as [r ->]. exists [], r; reflexivity.
      * destruct (IH H) as (l & r & ->). exists (x :: l), r; reflexivity.
  - intros (l & r & ->). apply occursb_app_true.
Qed.

(** ** The matcher and [sub] *)

Lemma greedy_le (k : text -> option nat) (s : text) (n : nat) :
  (forall t m, k t = Some m -> m <= length t) ->
  greedy k s = Some n -> n <= length s.
Proof.
  intros Hk; revert n; induction s as [|x s IH]; intros n; simpl.
  - apply Hk.
  - destruct (is_space x); [|apply (Hk (x :: s))].
    destruct (greedy k s) as [m|].
    + intros E; injection E as <-. specialize (IH m eq_refl); lia.
    + apply (Hk (x :: s)).
Qed.

Lemma match_here_le (p : pattern) (s : text) (n : nat) :
  match_here p s = Some n -> n <= length s.
Proof.
  revert s n; induction p as [|[c|] p IH]; intros s n; simpl.
  - intros E; injection E as <-; lia.
  - destruct s as [|x s]; [discriminate|].
    destruct (char_eqb x c); [|discriminate].
    destruct (match_here p s) as [m|] eqn:E; [|discriminate].
    simpl; intros E'; injection E' as <-. apply IH in E; simpl; lia.
  - destruct s as [|x s]; [discriminate|].
    destruct (is_space x); [|discriminate].
    destruct (greedy (match_here p) s) as [m|] eqn:E; [|discriminate].
    simpl; intros E'; injection E' as <-.
    apply greedy_le in E; [simpl; lia | exact IH].
Qed.

Lemma match_here_lit_app (L : text) (q : pattern) (s : text) :
  match_here (lit L ++ q) s =
  if prefixb L s
  then option_map (Nat.add (length L)) (match_here q (skipn (length L) s))
  else None.
Proof.
  revert s; induction L as [|c L IH]; intros s.
  - simpl. destruct (match_here q s); reflexivity.
  - destruct s as [|x s]; [reflexivity|].
    cbn [lit map app match_here prefixb length skipn].
    unfold char_eqb; rewrite (N.eqb_sym x c).
    destruct (N.eqb c x); [|reflexivity].
    fold (lit L). rewrite IH. cbn [andb].
    destruct (prefixb L s); [|reflexivity].
    destruct (match_here q (skipn (length L) s)); reflexivity.
Qed.

Lemma match_here_lit (L : text) (s : text) :
  match_here (lit L) s = if prefixb L s then Some (length L) else None.
Proof.
  rewrite <- (app_nil_r (lit L)), match_here_lit_app.
  destruct (prefixb L s); [|reflexivity].
  simpl; rewrite Nat.add_0_r; reflexivity.
Qed.

Lemma sub_from_skip (p : pattern) (R : text) (k : nat) (s : text) :
  k <= length s -> sub_from p R k s = sub_from p R 0 (skipn k s).
Proof.
  revert s; induction k as [|k IH]; intros s Hk; [reflexivity|].
  destruct s as [|x s]; simpl in Hk; [lia|].
  simpl. apply IH; lia.
Qed.

Lemma sub_hit (p : pattern) (R : text) (s : text) (n : nat) :
  match_here p s = Some (S n) -> sub p R s = R ++ sub p R (skipn (S n) s).
Proof.
  intros E. pose proof (match_here_le _ _ _ E) as Hn.
  destruct s as [|x s]; simpl in Hn; [lia|].
  unfold sub; cbn [sub_from]. rewrite E.
  rewrite sub_from_skip by lia. reflexivity.
Qed.

Lemma sub_miss (p : pattern) (R : text) (x : char) (s : text) :
  match_here p (x :: s) = None -> sub p R (x :: s) = x :: sub p R s.
Proof. intros E. unfold sub; cbn [sub_from]. rewrite E. reflexivity. Qed.

Lemma sub_nil (p : pattern) (R : text) :
  match_here p [] = None -> sub p R [] = [].
Proof. intros E. unfold sub; cbn [sub_from]. rewrite E. reflexivity. Qed.

Lemma search_false_head (p : pattern) (s : text) :
  search p s = false -> match_here p s = None.
Proof.
  destruct s; simpl; destruct (match_here p _); congruence.
Qed.

Lemma search_cons (p : pattern) (x : char) (s : text) :
  match_here p (x :: s) = None -> search p (x :: s) = search p s.
Proof. intros E; simpl. rewrite E. reflexivity. Qed.

Lemma sub_no_match (p : pattern) (R : text) (s : text) :
  search p s = false -> sub p R s = s.
Proof.
  induction s as [|x s IH]; intros H.
  - apply sub_nil, search_false_head, H.
  - pose proof (search_false_head _ _ H) as E.
    rewrite sub_miss by exact E. rewrite search_cons in H by exact E.
    rewrite IH; auto.
Qed.

(** *** Rules whose pattern begins with a literal *)

Section LiteralHead.

Variable P : text.
Variable q : pattern.
Variable R : text.
Hypothesis P_nonempty : P <> [].

Let p : pattern := lit P ++ q.

Lemma head_match (s : text) (n : nat) :
  match_here p s = Some n -> prefixb P s = true /\ 0 < n.
Proof.
  unfold p; rewrite match_here_lit_app.
  destruct (prefixb P s); [|discriminate].
  destruct (match_here q _); [|discriminate].
  simpl; intros E; injection E as <-.
  split; auto. destruct P; [congruence | simpl; lia].
Qed.

Lemma head_miss (s : text) : prefixb P s = false -> match_here p s = None.
Proof.
  intros H. unfold p; rewrite match_here_lit_app, H. reflexivity.
Qed.

Lemma head_search (s : text) : occursb P s = false -> search p s = false.
Proof.
  induction s as [|x s IH]; intros H.
  - simpl. rewrite head_miss; auto. apply occursb_false_head, H.
  - rewrite occursb_cons in H. apply orb_false_iff in H as [H1 H2].
    rewrite search_cons by (apply head_miss, H1). auto.
Qed.

Lemma head_sub_nil : sub p R [] = [].
Proof.
  apply sub_nil, head_miss. destruct P; [congruence | reflexivity].
Qed.

Lemma head_sub_miss (x : char) (s : text) :
  prefixb P (x :: s) = false -> sub p R (x :: s) = x :: sub p R s.
Proof. intros H; apply sub_miss, head_miss, H. Qed.

Lemma head_sub_hit (s : text) (n : nat) :
  match_here p s = Some n -> sub p R s = R ++ sub p R (skipn n s).
Proof.
  intros E. destruct (head_match _ _ E) as [_ Hn].
  destruct n; [lia|]. apply sub_hit, E.
Qed.

(** Without an occurrence of the literal the rule changes nothing. *)
Lemma head_sub_id (s : text) : occursb P s = false -> sub p R s = s.
Proof. intros H; apply sub_no_match, head_search, H. Qed.

(** A tail of the literal at the head of the output was at the head of
    the input. *)
Lemma head_reflect (t : text) :
  apart P R = true ->
  forall a b, P = a ++ b -> a <> [] ->
  prefixb b (sub p R t) = true -> prefixb b t = true.
Proof.
  intros HR. induction t as [|x t IH]; intros a b E Ha.
  - rewrite head_sub_nil. auto.
  - destruct b as [|c b]; [reflexivity|].
    destruct (match_here p (x :: t)) as [n|] eqn:M.
    + rewrite (head_sub_hit _ _ M).
      rewrite clash_app; [discriminate|].
      unfold apart in HR; rewrite forallb_forall in HR.
      apply HR. rewrite E. apply In_proper_suffixes; congruence.
    + rewrite sub_miss by exact M. simpl.
      rewrite !andb_true_iff. intros [Hc Hb]; split; auto.
      apply (IH (a ++ [c]) b); auto.
      * rewrite <- app_assoc; exact E.
      * destruct a; discriminate.
Qed.

Lemma head_reflect_cons (x : char) (t : text) :
  apart P R = true ->
  prefixb P (x :: sub p R t) = true -> prefixb P (x :: t) = true.
Proof.
  intros HR H.
  assert (E : exists c P', P = c :: P')
    by (destruct P; [congruence | eauto]).
  destruct E as (c & P' & E).
  rewrite E in H |- *. simpl in H |- *.
  apply andb_true_iff in H as [H1 H2]. rewrite H1. simpl.
  apply (head_reflect t HR [c] P'); [exact E | discriminate | exact H2].
Qed.

(** The rule steps over a tail of the literal that is not the start of a
    match. *)
Lemma head_skip (t : text) :
  unbordered P = true ->
  forall b a, P = a ++ b -> a <> [] ->
  sub p R (b ++ t) = b ++ sub p R t.
Proof.
  intros HU. induction b as [|c b IH]; intros a E Ha; [reflexivity|].
  simpl app. rewrite head_sub_miss.
  - f_equal. apply (IH (a ++ [c])).
    + rewrite <- app_assoc; exact E.
    + destruct a; discriminate.
  - change (c :: b ++ t) with ((c :: b) ++ t).
    apply clash_app. rewrite clash_sym.
    unfold unbordered in HU; rewrite forallb_forall in HU.
    apply HU. rewrite E. apply In_proper_suffixes; congruence.
Qed.

Lemma head_skip_search (t : text) :
  unbordered P = true ->
  forall b a, P = a ++ b -> a <> [] ->
  search p (b ++ t) = search p t.
Proof.
  intros HU. induction b as [|c b IH]; intros a E Ha; [reflexivity|].
  simpl app. rewrite search_cons.
  - apply (IH (a ++ [c])).
    + rewrite <- app_assoc; exact E.
    + destruct a; discriminate.
  - apply head_miss.
    change (c :: b ++ t) with ((c :: b) ++ t).
    apply clash_app. rewrite clash_sym.
    unfold unbordered in HU; rewrite forallb_forall in HU.
    apply HU. rewrite E. apply In_proper_suffixes; congruence.
Qed.

End LiteralHead.

(** *** Rules whose pattern is a literal *)

Lemma closed_under_app (P R u : text) :
  closed_under P R = true ->
  occursb P u = false -> occursb P (R ++ u) = false.
Proof.
  unfold closed_under. intros HR Hu.
  induction R as [|x R IH]; [exact Hu|].
  simpl suffixes in HR. simpl forallb in HR.
  apply andb_true_iff in HR as [H1 H2].
  simpl app. rewrite occursb_cons, (IH H2), orb_false_r.
  change (x :: R ++ u) with ((x :: R) ++ u).
  apply clash_app. rewrite clash_sym. exact H1.
Qed.

(** After a literal has been replaced everywhere, it occurs nowhere. *)
Lemma lit_sub_clean (P R : text) :
  P <> [] -> apart P R = true -> closed_under P R = true ->
  forall t, occursb P (sub (lit P) R t) = false.
Proof.
  intros HP HA HC t.
  rewrite <- (app_nil_r (lit P)).
  remember (length t) as n eqn:Hn.
  assert (Hle : length t <= n) by lia. clear Hn.
  revert t Hle; induction n as [|n IH]; intros t Hle.
  - destruct t; [|simpl in Hle; lia].
    rewrite (head_sub_nil P [] R HP).
    destruct P; [congruence | reflexivity].
  - destruct t as [|x t].
    + rewrite (head_sub_nil P [] R HP).
      destruct P; [congruence | reflexivity].
    + simpl in Hle.
      destruct (match_here (lit P ++ []) (x :: t)) as [m|] eqn:M.
      * rewrite (head_sub_hit P [] R HP _ _ M).
        destruct (head_match P [] HP _ _ M) as [_ Hm].
        apply closed_under_app; [exact HC|].
        apply IH. rewrite length_skipn. cbn [length]. lia.
      * rewrite sub_miss by exact M.
        rewrite occursb_cons, IH by lia. rewrite orb_false_r.
        destruct (prefixb P (x :: sub (lit P ++ []) R t)) eqn:E; [|reflexivity].
        apply (head_reflect_cons P [] R HP x t HA) in E.
        rewrite app_nil_r, match_here_lit, E in M. discriminate.
Qed.

(** ** The two rules *)

Lemma token_stmt_nonempty : token_stmt <> [].
Proof. discriminate. Qed.

Lemma token_stmt_unbordered : unbordered token_stmt = true.
Proof. vm_compute; reflexivity. Qed.

Lemma token_stmt_apart1 : apart token_stmt replacement1 = true.
Proof. vm_compute; reflexivity. Qed.

Lemma token_stmt_apart2 : apart token_stmt replacement2 = true.
Proof. vm_compute; reflexivity. Qed.

Lemma token_stmt_closed2 : closed_under token_stmt replacement2 = true.
Proof. vm_compute; reflexivity. Qed.

Lemma pattern1_head : pattern1 = lit token_stmt ++ guard.
Proof. reflexivity. Qed.

Lemma pattern2_head : pattern2 = lit token_stmt ++ [].
Proof. reflexivity. Qed.

Lemma rule_b_clean (s : text) : occursb token_stmt (rule_b s) = false.
Proof.
  apply lit_sub_clean.
  - exact token_stmt_nonempty.
  - exact token_stmt_apart2.
  - exact token_stmt_closed2.
Qed.

Lemma rule_a_id (s : text) : occursb token_stmt s = false -> rule_a s = s.
Proof.
  intros H. unfold rule_a. rewrite pattern1_head.
  apply head_sub_id; exact H.
Qed.

Lemma rule_b_id (s : text) : occursb token_stmt s = false -> rule_b s = s.
Proof.
  intros H. unfold rule_b. rewrite pattern2_head.
  apply head_sub_id; exact H.
Qed.

Lemma rewrite_clean (s : text) : occursb token_stmt (rewrite s) = false.
Proof. apply rule_b_clean. Qed.

Lemma rule_a_hit (s : text) (n : nat) :
  match_here pattern1 s = Some n ->
  rule_a s = replacement1 ++ rule_a (skipn n s).
Proof.
  intros M. unfold rule_a. rewrite pattern1_head in *.
  apply head_sub_hit; [exact token_stmt_nonempty | exact M].
Qed.

Lemma rule_a_miss (x : char) (s : text) :
  match_here pattern1 (x :: s) = None -> rule_a (x :: s) = x :: rule_a s.
Proof. apply sub_miss. Qed.

Lemma rule_a_match_head (s : text) (n : nat) :
  match_here pattern1 s = Some n -> prefixb token_stmt s = true.
Proof.
  rewrite pattern1_head. intros M.
  apply (head_match token_stmt guard token_stmt_nonempty s n M).
Qed.

Lemma rule_b_hit (t : text) :
  rule_b (token_stmt ++ t) = replacement2 ++ rule_b t.
Proof.
  unfold rule_b.
  assert (M : match_here pattern2 (token_stmt ++ t) = Some (length token_stmt)).
  { unfold pattern2. rewrite match_here_lit, prefixb_app. reflexivity. }
  rewrite pattern2_head in *.
  rewrite (head_sub_hit token_stmt [] replacement2 token_stmt_nonempty _ _ M).
  rewrite skipn_app, skipn_all, Nat.sub_diag. reflexivity.
Qed.

Lemma rule_b_miss (x : char) (s : text) :
  prefixb token_stmt (x :: s) = false -> rule_b (x :: s) = x :: rule_b s.
Proof.
  intros H. unfold rule_b. rewrite pattern2_head.
  apply head_sub_miss, H.
Qed.

Lemma token_stmt_cons : exists c P', token_stmt = [c] ++ P'.
Proof. do 2 eexists; reflexivity. Qed.

Lemma replacement1_cons : exists r, replacement1 = SLASH :: r.
Proof. eexists; reflexivity. Qed.

Lemma replacement2_cons : exists r, replacement2 = 99%N :: r.
Proof. eexists; reflexivity. Qed.

(** Rule A leaves a token statement without its guard in place. *)
Lemma rule_a_skip (t : text) :
  match_here pattern1 (token_stmt ++ t) = None ->
  rule_a (token_stmt ++ t) = token_stmt ++ rule_a t.
Proof.
  intros M. destruct token_stmt_cons as (c & P' & E).
  pose proof (head_skip token_stmt guard replacement1 t
                token_stmt_unbordered P' [c] E) as HS.
  rewrite <- pattern1_head in HS. fold (rule_a (P' ++ t)) (rule_a t) in HS.
  rewrite E in M |- *. simpl app in M |- *.
  rewrite rule_a_miss by exact M. f_equal.
  apply HS. discriminate.
Qed.

Lemma search_skip (t : text) :
  match_here pattern1 (token_stmt ++ t) = None ->
  search pattern1 (token_stmt ++ t) = search pattern1 t.
Proof.
  intros M. destruct token_stmt_cons as (c & P' & E).
  pose proof (head_skip_search token_stmt guard t
                token_stmt_unbordered P' [c] E) as HS.
  rewrite <- pattern1_head in HS.
  rewrite E in M |- *. simpl app in M |- *.
  rewrite search_cons by exact M.
  apply HS. discriminate.
Qed.

(** Where rule A has a match, rule B alone and rule B after rule A part
    ways: at the first match the one output goes on with [replacement2],
    the other with [replacement1]. *)
Lemma rule_b_after_a_differs (s : text) :
  search pattern1 s = true -> rule_b (rule_a s) <> rule_b s.
Proof.
  remember (length s) as n eqn:Hn.
  assert (Hle : length s <= n) by lia. clear Hn.
  revert s Hle; induction n as [|n IH]; intros s Hle H.
  - destruct s; [discriminate H | simpl in Hle; lia].
  - destruct (match_here pattern1 s) as [m|] eqn:M.
    + rewrite (rule_a_hit _ _ M).
      pose proof (rule_a_match_head _ _ M) as F.
      rewrite (prefixb_skipn _ _ F) at 2. rewrite rule_b_hit.
      destruct replacement1_cons as (r1 & ->).
      destruct replacement2_cons as (r2 & ->). simpl app.
      rewrite rule_b_miss by reflexivity.
      intros E. injection E as E _. discriminate E.
    + destruct (prefixb token_stmt s) eqn:F.
      * apply prefixb_skipn in F.
        set (t := skipn (length token_stmt) s) in *.
        assert (Ht : length t <= n).
        { apply (f_equal (@length char)) in F. rewrite length_app in F.
          change (length token_stmt) with 49 in F. lia. }
        rewrite F in M, H |- *.
        rewrite (rule_a_skip _ M), !rule_b_hit.
        rewrite (search_skip _ M) in H.
        intros E. apply app_inv_head in E. exact (IH t Ht H E).
      * destruct s as [|x s]; [discriminate H|].
        simpl in Hle. rewrite search_cons in H by exact M.
        rewrite rule_a_miss by exact M.
        rewrite (rule_b_miss x s F).
        rewrite rule_b_miss.
        -- intros E. injection E as E. apply (IH s); [lia | exact H | exact E].
        -- destruct (prefixb token_stmt (x :: rule_a s)) eqn:G; [|reflexivity].
           unfold rule_a in G. rewrite pattern1_head in G.
           apply (head_reflect_cons token_stmt guard replacement1
                    token_stmt_nonempty x s token_stmt_apart1) in G.
           congruence.
Qed.

Lemma search_pattern1_occurs (s : text) :
  search pattern1 s = true -> occursb token_stmt s = true.
Proof.
  intros H. destruct (occursb token_stmt s) eqn:E; [reflexivity|].
  rewrite pattern1_head, (head_search token_stmt guard s E) in H.
  discriminate H.
Qed.

Lemma search_pattern2_occurs (s : text) :
  search pattern2 s = occursb token_stmt s.
Proof.
  induction s as [|x s IH].
  - reflexivity.
  - change (search pattern2 (x :: s))
      with (match match_here (lit token_stmt) (x :: s) with
            | Some _ => true
            | None => search pattern2 s
            end).
    rewrite match_here_lit, occursb_cons, IH.
    destruct (prefixb token_stmt (x :: s)); reflexivity.
Qed.

Lemma rewrite_id (s : text) : occursb token_stmt s = false -> rewrite s = s.
Proof.
  intros H. unfold rewrite. rewrite (rule_a_id s H). apply rule_b_id, H.
Qed.

Lemma rewrite_changes (s : text) :
  occursb token_stmt s = true -> rewrite s <> s.
Proof.
  intros H E. pose proof (rewrite_clean s) as C. rewrite E in C. congruence.
Qed.

(** ** The per-file operation *)

Lemma update_same (fs : filesystem) (path : text) (n : node) :
  update fs path n path = Some n.
Proof. unfold update. rewrite text_eqb_refl. reflexivity. Qed.

Lemma update_other (fs : filesystem) (path q : text) (n : node) :
  q <> path -> update fs path n q = fs q.
Proof.
  intros H. unfold update. apply text_eqb_neq in H. rewrite H. reflexivity.
Qed.

(** What [fix_file] does on a file that can be read. *)
Lemma fix_file_readable (path : text) (w : world) (c : text) (wr : bool) :
  files w path = Some (File c wr) ->
  fix_file path w =
  if text_eqb (rewrite c) c then
    (Ok false, World (files w) (trace w ++ [EPrint (msg_no_changes path)]))
  else if wr then
    (Ok true,
     World (update (files w) path (File (rewrite c) true))
           (trace w ++ [EOpenW path; EWrite path (rewrite c);
                        EPrint (msg_fixed path)]))
  else
    (Raise (IOFailure path), World (files w) (trace w ++ [EOpenW path])).
Proof.
  intros H. unfold fix_file, bind, read_text. rewrite H.
  fold (rule_a c). fold (rule_b (rule_a c)). fold (rewrite c).
  destruct (text_eqb (rewrite c) c); cbn [negb].
  - reflexivity.
  - unfold write_text. rewrite H. destruct wr.
    + unfold print, log, ret. cbn [files trace].
      rewrite <- !app_assoc. reflexivity.
    + reflexivity.
Qed.

Lemma fix_file_unchanged (path : text) (w : world) (c : text) (wr : bool) :
  files w path = Some (File c wr) -> rewrite c = c ->
  fix_file path w =
  (Ok false, World (files w) (trace w ++ [EPrint (msg_no_changes path)])).
Proof.
  intros H E. rewrite (fix_file_readable path w _ _ H).
  apply text_eqb_eq in E. rewrite E. reflexivity.
Qed.

Lemma fix_file_changed (path : text) (w : world) (c : text) :
  files w path = Some (File c true) -> rewrite c <> c ->
  fix_file path w =
  (Ok true,
   World (update (files w) path (File (rewrite c) true))
         (trace w ++ [EOpenW path; EWrite path (rewrite c);
                      EPrint (msg_fixed path)])).
Proof.
  intros H E. rewrite (fix_file_readable path w _ _ H).
  apply text_eqb_neq in E. rewrite E. reflexivity.
Qed.

Lemma fix_file_read_only (path : text) (w : world) (c : text) :
  files w path = Some (File c false) -> rewrite c <> c ->
  fix_file path w =
  (Raise (IOFailure path), World (files w) (trace w ++ [EOpenW path])).
Proof.
  intros H E. rewrite (fix_file_readable path w _ _ H).
  apply text_eqb_neq in E. rewrite E. reflexivity.
Qed.

Lemma fix_file_no_access (path : text) (w : world) :
  files w path = Some NoAccess ->
  fix_file path w = (Raise (IOFailure path), w).
Proof. intros H. unfold fix_file, bind, read_text. rewrite H. reflexivity. Qed.

Lemma fix_file_bad_encoding (path : text) (w : world) :
  files w path = Some BadEncoding ->
  fix_file path w = (Raise (DecodeFailure path), w).
Proof. intros H. unfold fix_file, bind, read_text. rewrite H. reflexivity. Qed.

(** ** The transformation *)

(** C1.  Idempotence: applying rule A and then rule B to a text that
    already went through them changes nothing, so a run of [fix_file] on
    a file that holds rewritten text reports it unchanged and leaves the
    files as they are. *)
Theorem rewrite_idempotent (C : text) :
  rewrite (rewrite C) = rewrite C /\
  forall (fs : filesystem) (tr : list event) (path : text) (wr : bool),
    let w := World (update fs path (File (rewrite C) wr)) tr in
    fix_file path w =
    (Ok false, World (files w) (tr ++ [EPrint (msg_no_changes path)])).
Proof.
  assert (E : rewrite (rewrite C) = rewrite C)
    by apply rewrite_id, rewrite_clean.
  split; [exact E|].
  intros fs tr path wr w.
  apply (fix_file_unchanged path w (rewrite C) wr).
  - apply update_same.
  - exact E.
Qed.

(** C2.  The order of the rules matters.  On a text in which rule A's
    pattern has a match, rule B before rule A and rule A before rule B
    give different texts; rule B's pattern is a proper prefix of rule
    A's, and once rule B has run rule A's pattern matches nowhere.
    [fix_file] writes the result of rule A followed by rule B. *)
Theorem rule_order_matters (s : text) :
  search pattern1 s = true ->
  rule_a (rule_b s) <> rule_b (rule_a s) /\
  (exists q, q <> [] /\ pattern1 = pattern2 ++ q) /\
  search pattern1 (rule_b s) = false /\
  rewrite s = rule_b (rule_a s) /\
  forall (fs : filesystem) (tr : list event) (path : text),
    let w := World (update fs path (File s true)) tr in
    fix_file path w =
    (Ok true,
     World (update (files w) path (File (rule_b (rule_a s)) true))
           (tr ++ [EOpenW path; EWrite path (rule_b (rule_a s));
                   EPrint (msg_fixed path)])).
Proof.
  intros H. repeat split.
  - rewrite (rule_a_id _ (rule_b_clean s)).
    intros E. exact (rule_b_after_a_differs s H (eq_sym E)).
  - exists guard. split; [discriminate | reflexivity].
  - rewrite pattern1_head. apply head_search, rule_b_clean.
  - intros fs tr path w.
    apply (fix_file_changed path w s).
    + apply update_same.
    + apply rewrite_changes, search_pattern1_occurs, H.
Qed.

Lemma rule_order_matters_witness :
  search pattern1 example_idiom = true /\
  rule_a (rule_b example_idiom) <> rule_b (rule_a example_idiom).
Proof.
  split; [vm_compute; reflexivity|].
  apply (rule_order_matters example_idiom). vm_compute; reflexivity.
Defined.



(** C5.  No-op preservation: on a text in which neither pattern has a
    match the transformation returns the text itself, and [fix_file]
    opens nothing for writing, leaves the files as they are and prints
    the [- No changes needed in <path>] line. *)
Theorem no_match_no_change (c : text) :
  search pattern1 c = false -> search pattern2 c = false ->
  rewrite c = c /\
  forall (fs : filesystem) (tr : list event) (path : text) (wr : bool),
    let w := World (update fs path (File c wr)) tr in
    fix_file path w =
    (Ok false, World (files w) (tr ++ [EPrint (msg_no_changes path)])).
Proof.
  intros _ H2. rewrite search_pattern2_occurs in H2.
  pose proof (rewrite_id c H2) as E.
  split; [exact E|].
  intros fs tr path wr w.
  apply (fix_file_unchanged path w c wr);
    [apply update_same | exact E].
Qed.

Lemma no_match_no_change_witness :
  search pattern1 (str "const token = 1;") = false /\
  search pattern2 (str "const token = 1;") = false /\
  rewrite (str "const token = 1;") = str "const token = 1;".
Proof.
  split; [vm_compute; reflexivity|].
  split; [vm_compute; reflexivity|].
  apply (no_match_no_change (str "const token = 1;"));
    vm_compute; reflexivity.
Defined.

(** ** Rule A and whitespace *)

Lemma greedy_spaces (k : text -> option nat) (ws t : text) (n : nat) :
  all_space ws = true -> starts_nonspace t = true -> k t = Some n ->
  greedy k (ws ++ t) = Some (length ws + n).
Proof.
  intros Hws Ht Hk. induction ws as [|x ws IH].
  - destruct t as [|y t]; [exact Hk|].
    simpl in Ht |- *. apply negb_true_iff in Ht. rewrite Ht. exact Hk.
  - simpl in Hws. apply andb_true_iff in Hws as [Hx Hws].
    simpl. rewrite Hx, (IH Hws). reflexivity.
Qed.

Lemma match_space_plus (q : pattern) (ws t : text) (n : nat) :
  ws <> [] -> all_space ws = true -> starts_nonspace t = true ->
  match_here q t = Some n ->
  match_here (SpacePlus :: q) (ws ++ t) = Some (length ws + n).
Proof.
  intros Hne Hws Ht Hq. destruct ws as [|x ws]; [congruence|].
  simpl in Hws. apply andb_true_iff in Hws as [Hx Hws].
  simpl. rewrite Hx, (greedy_spaces _ ws t n Hws Ht Hq). reflexivity.
Qed.

Lemma match_lit_app (L : text) (q : pattern) (t : text) :
  match_here (lit L ++ q) (L ++ t) =
  option_map (Nat.add (length L)) (match_here q t).
Proof.
  rewrite match_here_lit_app, prefixb_app.
  rewrite skipn_app, skipn_all, Nat.sub_diag. reflexivity.
Qed.

Lemma match_idiom (w1 w2 w3 w4 rest : text) :
  w1 <> [] -> w2 <> [] -> w3 <> [] -> w4 <> [] ->
  all_space w1 = true -> all_space w2 = true ->
  all_space w3 = true -> all_space w4 = true ->
  match_here pattern1 (idiom w1 w2 w3 w4 ++ rest) =
  Some (length (idiom w1 w2 w3 w4)).
Proof.
  intros N1 N2 N3 N4 S1 S2 S3 S4.
  assert (A5 : match_here (lit guard_close) (guard_close ++ rest) =
               Some (length guard_close)).
  { rewrite match_here_lit, prefixb_app. reflexivity. }
  pose proof (match_space_plus (lit guard_close) w4 (guard_close ++ rest) _
                N4 S4 eq_refl A5) as A4.
  assert (A3 : match_here (lit guard_return ++ SpacePlus :: lit guard_close)
                 (guard_return ++ w4 ++ guard_close ++ rest) =
               Some (length guard_return + (length w4 + length guard_close))).
  { rewrite match_lit_app, A4. reflexivity. }
  pose proof (match_space_plus _ w3 (guard_return ++ w4 ++ guard_close ++ rest)
                _ N3 S3 eq_refl A3) as B3.
  assert (A2 : match_here
                 (lit guard_redirect ++ SpacePlus ::
                  lit guard_return ++ SpacePlus :: lit guard_close)
                 (guard_redirect ++ w3 ++ guard_return ++ w4 ++
                  guard_close ++ rest) =
               Some (length guard_redirect +
                     (length w3 +
                      (length guard_return +
                       (length w4 + length guard_close))))).
  { rewrite match_lit_app, B3. reflexivity. }
  pose proof (match_space_plus _ w2
                (guard_redirect ++ w3 ++ guard_return ++ w4 ++
                 guard_close ++ rest)
                _ N2 S2 eq_refl A2) as B2.
  assert (A1 : match_here
                 (lit guard_open ++ SpacePlus ::
                  lit guard_redirect ++ SpacePlus ::
                  lit guard_return ++ SpacePlus :: lit guard_close)
                 (guard_open ++ w2 ++ guard_redirect ++ w3 ++ guard_return ++
                  w4 ++ guard_close ++ rest) =
               Some (length guard_open +
                     (length w2 +
                      (length guard_redirect +
                       (length w3 +
                        (length guard_return +
                         (length w4 + length guard_close))))))).
  { rewrite match_lit_app, B2. reflexivity. }
  pose proof (match_space_plus _ w1
                (guard_open ++ w2 ++ guard_redirect ++ w3 ++ guard_return ++
                 w4 ++ guard_close ++ rest)
                _ N1 S1 eq_refl A1) as B1.
  unfold pattern1, idiom. rewrite <- !app_assoc.
  rewrite match_lit_app, B1. rewrite !length_app. reflexivity.
Qed.

(** C8, as the code has it.  Rule A matches the idiom when each of the
    four gaps of its pattern (between the two statements, after the
    opening brace, after the redirect and after [return;]) is a non-empty
    run of whitespace characters, every other character being as in the
    pattern; the match is the whole idiom and rule A puts [replacement1]
    in its place. *)
Theorem rule_a_matches_idiom (w1 w2 w3 w4 rest : text) :
  w1 <> [] -> w2 <> [] -> w3 <> [] -> w4 <> [] ->
  all_space w1 = true -> all_space w2 = true ->
  all_space w3 = true -> all_space w4 = true ->
  match_here pattern1 (idiom w1 w2 w3 w4 ++ rest) =
    Some (length (idiom w1 w2 w3 w4)) /\
  rule_a (idiom w1 w2 w3 w4 ++ rest) = replacement1 ++ rule_a rest.
Proof.
  intros N1 N2 N3 N4 S1 S2 S3 S4.
  pose proof (match_idiom w1 w2 w3 w4 rest N1 N2 N3 N4 S1 S2 S3 S4) as M.
  split; [exact M|].
  rewrite (rule_a_hit _ _ M).
  rewrite skipn_app, skipn_all, Nat.sub_diag. reflexivity.
Qed.

Lemma rule_a_matches_idiom_witness :
  all_space [32%N; 9%N] = true /\
  rule_a (idiom [32%N; 9%N] [LF] [LF; 32%N] [160%N] ++ str " // end") =
  replacement1 ++ rule_a (str " // end").
Proof.
  split; [reflexivity|].
  apply (rule_a_matches_idiom [32%N; 9%N] [LF] [LF; 32%N] [160%N]
           (str " // end"));
    solve [discriminate | reflexivity].
Defined.

(** C8, as stated, fails: with no whitespace between the two statements
    rule A has no match and leaves the text as it is, and so it does when
    the spacing inside the first statement differs from the pattern's. *)
Lemma rule_a_whitespace_counterexample :
  all_space [] = true /\
  match_here pattern1 (idiom [] [LF] [LF] [LF]) = None /\
  rule_a (idiom [] [LF] [LF] [LF]) = idiom [] [LF] [LF] [LF] /\
  rule_a (str "const token  =  localStorage.getItem('auth_token');" ++
          [LF] ++ guard_open ++ [LF] ++ guard_redirect ++ [LF] ++
          guard_return ++ [LF] ++ guard_close) =
  str "const token  =  localStorage.getItem('auth_token');" ++
  [LF] ++ guard_open ++ [LF] ++ guard_redirect ++ [LF] ++
  guard_return ++ [LF] ++ guard_close.
Proof. repeat split; vm_compute; reflexivity. Qed.

(** ** The example of the specification *)

Lemma rewrite_example : rewrite example_idiom = replacement1.
Proof. vm_compute; reflexivity. Qed.

Lemma rewrite_replacement1 : rewrite replacement1 = replacement1.
Proof. rewrite <- rewrite_example. apply rewrite_id, rewrite_clean. Qed.

Lemma example_changes : rewrite example_idiom <> example_idiom.
Proof. apply text_eqb_neq. vm_compute; reflexivity. Qed.

(** C9.  On a (writable) file that holds exactly the guarded idiom of the
    specification, [fix_file] writes [replacement1] and prints
    [<check mark> Fixed <path>]; run again on the result, it writes nothing
    and prints [- No changes needed in <path>]. *)
Theorem example_scenario (fs : filesystem) (tr : list event) (path : text) :
  let w := World (update fs path (File example_idiom true)) tr in
  let w1 := World (update (files w) path (File replacement1 true))
                  (tr ++ [EOpenW path; EWrite path replacement1;
                          EPrint (CHECK_MARK :: str " Fixed " ++ path)]) in
  let w2 := World (files w1)
                  (trace w1 ++
                   [EPrint (str "- No changes needed in " ++ path)]) in
  fix_file path w = (Ok true, w1) /\
  fix_file path w1 = (Ok false, w2).
Proof.
  intros w w1 w2. split.
  - unfold w1. rewrite <- rewrite_example.
    apply (fix_file_changed path w example_idiom);
      [apply update_same | exact example_changes].
  - apply (fix_file_unchanged path w1 replacement1 true);
      [apply update_same | exact rewrite_replacement1].
Qed.

(** ** Effects of one call *)

Lemma console_app (a b : list event) : console (a ++ b) = console a ++ console b.
Proof.
  induction a as [|[p|p c|l] a IH]; simpl; rewrite ?IH; reflexivity.
Qed.

Lemma opens_app (a b : list event) : opens (a ++ b) = opens a ++ opens b.
Proof.
  induction a as [|[p|p c|l] a IH]; simpl; rewrite ?IH; reflexivity.
Qed.

Lemma writes_app (a b : list event) : writes (a ++ b) = writes a ++ writes b.
Proof.
  induction a as [|[p|p c|l] a IH]; simpl; rewrite ?IH; reflexivity.
Qed.



(** ** The run *)

Lemma main_loop_missing (filename : text) (rest : list text) (count : nat)
    (w : world) :
  files w (path_join JS_DIR filename) = None ->
  main_loop (filename :: rest) count w =
  main_loop rest count
    (World (files w)
           (trace w ++ [EPrint (msg_not_found (path_join JS_DIR filename))])).
Proof.
  intros H. cbn [main_loop]. unfold bind at 1. unfold path_exists.
  rewrite H. reflexivity.
Qed.

Lemma main_loop_found (filename : text) (rest : list text) (count : nat)
    (w : world) (n : node) :
  files w (path_join JS_DIR filename) = Some n ->
  main_loop (filename :: rest) count w =
  match fix_file (path_join JS_DIR filename) w with
  | (Ok fixed, w') => main_loop rest (if fixed then S count else count) w'
  | (Raise e, w') => (Raise e, w')
  end.
Proof.
  intros H. cbn [main_loop]. unfold bind at 1. unfold path_exists.
  rewrite H. reflexivity.
Qed.

Lemma main_loop_app (pre post : list text) (count : nat) (w : world) :
  main_loop (pre ++ post) count w =
  match main_loop pre count w with
  | (Ok c, w1) => main_loop post c w1
  | (Raise e, w1) => (Raise e, w1)
  end.
Proof.
  revert count w; induction pre as [|f pre IH]; intros count w.
  - reflexivity.
  - rewrite <- app_comm_cons.
    destruct (files w (path_join JS_DIR f)) as [n|] eqn:F.
    + rewrite !(main_loop_found f _ count w n F).
      destruct (fix_file (path_join JS_DIR f) w) as [[b|e] w1];
        [apply IH | reflexivity].
    + rewrite !(main_loop_missing f _ count w F). apply IH.
Qed.

Lemma fix_file_ok (path : text) (w : world) (b : bool) (w' : world) :
  fix_file path w = (Ok b, w') ->
  exists c wr,
    files w path = Some (File c wr) /\
    if b then
      wr = true /\ rewrite c <> c /\
      w' = World (update (files w) path (File (rewrite c) true))
                 (trace w ++ [EOpenW path; EWrite path (rewrite c);
                              EPrint (msg_fixed path)])
    else
      rewrite c = c /\
      w' = World (files w) (trace w ++ [EPrint (msg_no_changes path)]).
Proof.
  destruct (files w path) as [[c wr| |]|] eqn:F.
  - rewrite (fix_file_readable path w c wr F).
    destruct (text_eqb (rewrite c) c) eqn:E.
    + intros H; injection H as <- <-. exists c, wr.
      apply text_eqb_eq in E. auto.
    + destruct wr; [|discriminate].
      intros H; injection H as <- <-. exists c, true.
      apply text_eqb_neq in E. auto.
  - rewrite (fix_file_no_access path w F). discriminate.
  - rewrite (fix_file_bad_encoding path w F). discriminate.
  - unfold fix_file, bind, read_text. rewrite F. discriminate.
Qed.

(** A call that raises has printed nothing and written nothing. *)
Lemma fix_file_raise (path : text) (w : world) (e : exn) (w' : world) :
  fix_file path w = (Raise e, w') ->
  files w' = files w /\
  console (trace w') = console (trace w) /\
  writes (trace w') = writes (trace w).
Proof.
  destruct (files w path) as [[c wr| |]|] eqn:F.
  - rewrite (fix_file_readable path w c wr F).
    destruct (text_eqb (rewrite c) c); [discriminate|].
    destruct wr; [discriminate|].
    intros H; injection H as _ <-. cbn [files trace].
    rewrite console_app, writes_app, !app_nil_r. auto.
  - rewrite (fix_file_no_access path w F). intros H; injection H as _ <-. auto.
  - rewrite (fix_file_bad_encoding path w F).
    intros H; injection H as _ <-. auto.
  - unfold fix_file, bind, read_text. rewrite F.
    intros H; injection H as _ <-. auto.
Qed.

Lemma per_file_line_not_summary (line : text) (n : nat) :
  per_file_line line -> line <> msg_summary n.
Proof.
  intros [path [->|[->| ->]]] E;
    apply (f_equal (hd 0%N)) in E; vm_compute in E; discriminate E.
Qed.

(** The lines of a loop that runs to its end: one per name, and the count
    goes up by the number of [Fixed] lines. *)
Lemma main_loop_lines (names : list text) :
  forall (count : nat) (w : world) (c : nat) (w' : world),
    main_loop names count w = (Ok c, w') ->
    exists lines,
      console (trace w') = console (trace w) ++ lines /\
      length lines = length names /\
      Forall per_file_line lines /\
      c = count + length (filter fixed_line lines).
Proof.
  induction names as [|f rest IH]; intros count w c w' H.
  - injection H as <- <-. exists []. rewrite app_nil_r.
    repeat split; auto.
  - set (p := path_join JS_DIR f) in *.
    destruct (files w p) as [n|] eqn:F.
    + rewrite (main_loop_found f rest count w n F) in H. fold p in H.
      destruct (fix_file p w) as [[b|e] w1] eqn:FF; [|discriminate].
      destruct (fix_file_ok p w b w1 FF) as (c0 & wr & _ & Hb).
      destruct (IH _ _ _ _ H) as (lines & L1 & L2 & L3 & L4).
      destruct b.
      * destruct Hb as (_ & _ & ->). cbn [trace] in L1.
        exists (msg_fixed p :: lines).
        rewrite L1, console_app, <- app_assoc.
        repeat split; cbn [length]; auto.
        -- constructor; [exists p; auto | exact L3].
        -- cbn [filter msg_fixed fixed_line]. unfold char_eqb.
           rewrite N.eqb_refl. cbn [length]. lia.
      * destruct Hb as (_ & ->). cbn [trace] in L1.
        exists (msg_no_changes p :: lines).
        rewrite L1, console_app, <- app_assoc.
        repeat split; cbn [length]; auto.
        constructor; [exists p; auto | exact L3].
    + rewrite (main_loop_missing f rest count w F) in H. fold p in H.
      destruct (IH _ _ _ _ H) as (lines & L1 & L2 & L3 & L4).
      cbn [trace] in L1.
      exists (msg_not_found p :: lines).
      rewrite L1, console_app, <- app_assoc.
      repeat split; cbn [length]; auto.
      constructor; [exists p; auto | exact L3].
Qed.

Lemma node_eqb_refl (n : node) : node_eqb n n = true.
Proof.
  destruct n as [c wr| |]; simpl; auto.
  rewrite text_eqb_refl. destruct wr; reflexivity.
Qed.

Lemma changed_same (fs fs' : filesystem) (q : text) :
  fs' q = fs q -> changed fs fs' q = false.
Proof.
  intros E. unfold changed. rewrite E. destruct (fs q) as [n|]; auto.
  rewrite node_eqb_refl. reflexivity.
Qed.

Lemma changed_ext (fs1 fs2 fs' : filesystem) (q : text) :
  fs1 q = fs2 q -> changed fs1 fs' q = changed fs2 fs' q.
Proof. intros E. unfold changed. rewrite E. reflexivity. Qed.

Lemma distinct_cons (x : text) (l : list text) :
  distinct (x :: l) = true -> ~ In x l /\ distinct l = true.
Proof.
  simpl. rewrite andb_true_iff, negb_true_iff. intros [H1 H2]. split; auto.
  intros HI. assert (E : existsb (text_eqb x) l = true).
  { apply existsb_exists. exists x. split; [exact HI | apply text_eqb_refl]. }
  congruence.
Qed.

(** With distinct paths, the count goes up by the number of paths that
    hold something else after the loop than before, and no other path is
    touched. *)
Lemma main_loop_changed (names : list text) :
  distinct (paths names) = true ->
  forall (count : nat) (w : world) (c : nat) (w' : world),
    main_loop names count w = (Ok c, w') ->
    c = count + length (filter (changed (files w) (files w')) (paths names)) /\
    (forall q, ~ In q (paths names) -> files w' q = files w q).
Proof.
  induction names as [|f rest IH]; intros D count w c w' H.
  - injection H as <- <-. split; [simpl; lia | reflexivity].
  - change (paths (f :: rest)) with (path_join JS_DIR f :: paths rest) in *.
    set (p := path_join JS_DIR f) in *.
    apply distinct_cons in D as [Hp D].
    destruct (files w p) as [n|] eqn:F.
    + rewrite (main_loop_found f rest count w n F) in H. fold p in H.
      destruct (fix_file p w) as [[b|e] w1] eqn:FF; [|discriminate].
      destruct (fix_file_ok p w b w1 FF) as (c0 & wr & F0 & Hb).
      destruct (IH D _ _ _ _ H) as (C1 & C2).
      destruct b.
      * destruct Hb as (-> & Hc & ->). cbn [files] in C1, C2.
        assert (Ep : changed (files w) (files w') p = true).
        { unfold changed. rewrite (C2 p Hp), update_same, F0. simpl.
          apply text_eqb_neq in Hc.
          destruct (text_eqb c0 (rewrite c0)) eqn:E; [|reflexivity].
          apply text_eqb_eq in E. rewrite <- E, text_eqb_refl in Hc.
          discriminate Hc. }
        split.
        -- cbn [filter]. rewrite Ep. cbn [length].
           rewrite (filter_ext_in
                      (changed (files w) (files w'))
                      (changed (update (files w) p (File (rewrite c0) true))
                               (files w'))).
           ++ lia.
           ++ intros q Hq. apply changed_ext. symmetry. apply update_other.
              intros ->. exact (Hp Hq).
        -- intros q Hq. rewrite C2 by (intros HI; apply Hq; right; exact HI).
           apply update_other. intros ->. apply Hq. left. reflexivity.
      * destruct Hb as (_ & ->). cbn [files] in C1, C2.
        split.
        -- cbn [filter]. rewrite (changed_same _ _ p (C2 p Hp)). exact C1.
        -- intros q Hq. apply C2. intros HI; apply Hq; right; exact HI.
    + rewrite (main_loop_missing f rest count w F) in H. fold p in H.
      destruct (IH D _ _ _ _ H) as (C1 & C2). cbn [files] in C1, C2.
      split.
      * cbn [filter]. rewrite (changed_same _ _ p (C2 p Hp)). exact C1.
      * intros q Hq. apply C2. intros HI; apply Hq; right; exact HI.
Qed.

Lemma files_to_fix_distinct : distinct (paths files_to_fix) = true.
Proof. vm_compute; reflexivity. Qed.

(** C3.  A run that gets through the list has printed one line per file
    and then, once, the summary [Fixed <N> files] (after an empty line);
    [N] is the number of [Fixed] lines, which is the number of listed
    files whose content the run changed.  Files reported missing or
    unchanged add nothing to it. *)
Theorem summary_counts_rewritten (w w' : world) :
  main w = (Ok tt, w') ->
  exists (lines : list text) (N : nat),
    console (trace w') =
      console (trace w) ++ lines ++
      [LF :: str "Fixed " ++ decimal N ++ str " files"] /\
    length lines = 9 /\
    Forall per_file_line lines /\
    (forall l n, In l lines -> l <> msg_summary n) /\
    N = length (filter fixed_line lines) /\
    N = length (filter (changed (files w) (files w')) (paths files_to_fix)).
Proof.
  unfold main, bind.
  destruct (main_loop files_to_fix 0 w) as [[c|e] w1] eqn:L; [|discriminate].
  intros H. injection H as <-.
  destruct (main_loop_lines _ _ _ _ _ L) as (lines & L1 & L2 & L3 & L4).
  destruct (main_loop_changed _ files_to_fix_distinct _ _ _ _ L) as (C1 & _).
  exists lines, c. cbn [trace files].
  rewrite console_app, L1, <- app_assoc.
  repeat split; auto.
  intros l n Hl. apply per_file_line_not_summary.
  rewrite Forall_forall in L3. apply L3, Hl.
Qed.

Lemma summary_counts_rewritten_witness :
  main (World sample_fs []) = (Ok tt, snd (main (World sample_fs []))) /\
  exists (lines : list text) (N : nat),
    console (trace (snd (main (World sample_fs [])))) =
      lines ++ [LF :: str "Fixed " ++ decimal N ++ str " files"] /\
    length lines = 9 /\
    N = length (filter (changed sample_fs
                          (files (snd (main (World sample_fs [])))))
                  (paths files_to_fix)).
Proof.
  split; [vm_compute; reflexivity|].
  destruct (summary_counts_rewritten
              (World sample_fs []) (snd (main (World sample_fs []))))
    as (lines & N & H1 & H2 & _ & _ & _ & H6);
    [vm_compute; reflexivity|].
  exists lines, N. repeat split; [exact H1 | exact H2 | exact H6].
Defined.

(** C6.  A listed file that is not on disk: the loop prints
    [<ballot x> File not found: <path>], raises nothing, and goes on with
    the rest of the list from the same count; the run ends as the rest of
    the list and the summary make it end. *)
Theorem missing_file_skipped (pre : list text) (filename : text)
    (post : list text) (w : world) (c : nat) (w1 : world) :
  files_to_fix = pre ++ filename :: post ->
  main_loop pre 0 w = (Ok c, w1) ->
  files w1 (path_join JS_DIR filename) = None ->
  let w2 :=
    World (files w1)
          (trace w1 ++
           [EPrint (BALLOT_X :: str " File not found: " ++
                    path_join JS_DIR filename)]) in
  main_loop (filename :: post) c w1 = main_loop post c w2 /\
  main w =
    (fixed_count <- main_loop post c ;; print (msg_summary fixed_count)) w2.
Proof.
  intros E L F w2.
  pose proof (main_loop_missing filename post c w1 F) as S.
  split; [exact S|].
  unfold main, bind. rewrite E, main_loop_app, L, S. reflexivity.
Qed.

Lemma missing_file_skipped_witness :
  files_to_fix =
    [str "billings.js"] ++ str "chatbot-ai.js" :: skipn 2 files_to_fix /\
  main (World sample_fs []) =
    (fixed_count <- main_loop (skipn 2 files_to_fix) 1 ;;
     print (msg_summary fixed_count))
      (World (files (snd (main_loop [str "billings.js"] 0 (World sample_fs []))))
             (trace (snd (main_loop [str "billings.js"] 0 (World sample_fs [])))
              ++ [EPrint (BALLOT_X :: str " File not found: " ++
                          path_join JS_DIR (str "chatbot-ai.js"))])).
Proof.
  split; [reflexivity|].
  apply (missing_file_skipped [str "billings.js"] (str "chatbot-ai.js")
           (skipn 2 files_to_fix) (World sample_fs []) 1
           (snd (main_loop [str "billings.js"] 0 (World sample_fs []))));
    vm_compute; reflexivity.
Defined.

(** C7.  A listed file that exists and on which [fix_file] raises (it
    cannot be read, is not valid UTF-8, or cannot be opened for writing):
    nothing catches the exception.  The loop and the run end with it, in
    the world the failing call left: the files and what was written are as
    before the call, the console holds the lines of the files before it
    and nothing else, and none of them is the summary. *)
Theorem io_failure_aborts (pre : list text) (filename : text)
    (post : list text) (w : world) (c : nat) (w1 : world) (e : exn)
    (w2 : world) :
  files_to_fix = pre ++ filename :: post ->
  main_loop pre 0 w = (Ok c, w1) ->
  files w1 (path_join JS_DIR filename) <> None ->
  fix_file (path_join JS_DIR filename) w1 = (Raise e, w2) ->
  main_loop (filename :: post) c w1 = (Raise e, w2) /\
  main w = (Raise e, w2) /\
  files w2 = files w1 /\
  writes (trace w2) = writes (trace w1) /\
  exists lines,
    console (trace w2) = console (trace w) ++ lines /\
    length lines = length pre /\
    forall l n, In l lines -> l <> msg_summary n.
Proof.
  intros E L F R.
  assert (S : main_loop (filename :: post) c w1 = (Raise e, w2)).
  { destruct (files w1 (path_join JS_DIR filename)) as [n|] eqn:Fn;
      [|congruence].
    rewrite (main_loop_found filename post c w1 n Fn), R. reflexivity. }
  split; [exact S|].
  split.
  { unfold main, bind. rewrite E, main_loop_app, L, S. reflexivity. }
  destruct (fix_file_raise _ _ _ _ R) as (R1 & R2 & R3).
  split; [exact R1|]. split; [exact R3|].
  destruct (main_loop_lines _ _ _ _ _ L) as (lines & L1 & L2 & L3 & _).
  exists lines. rewrite R2. repeat split; auto.
  intros l n Hl. apply per_file_line_not_summary.
  rewrite Forall_forall in L3. apply L3, Hl.
Qed.

Lemma io_failure_aborts_witness :
  files_to_fix =
    [str "billings.js"; str "chatbot-ai.js"] ++
    str "device-settings.js" :: skipn 3 files_to_fix /\
  main (World broken_fs []) =
    (Raise (DecodeFailure (str "frontend/assets/js/device-settings.js")),
     snd (main_loop [str "billings.js"; str "chatbot-ai.js"] 0
            (World broken_fs []))).
Proof.
  split; [reflexivity|].
  apply (io_failure_aborts [str "billings.js"; str "chatbot-ai.js"]
           (str "device-settings.js") (skipn 3 files_to_fix)
           (World broken_fs []) 1
           (snd (main_loop [str "billings.js"; str "chatbot-ai.js"] 0
                   (World broken_fs [])))
           (DecodeFailure (str "frontend/assets/js/device-settings.js"))
           (snd (main_loop [str "billings.js"; str "chatbot-ai.js"] 0
                   (World broken_fs []))));
    solve [vm_compute; reflexivity | vm_compute; discriminate].
Defined.

(** * Further properties of the script *)

(** ** What a match of rule A looks like *)

Lemma greedy_inv (k : text -> option nat) (s : text) (n : nat) :
  greedy k s = Some n ->
  exists ws t m,
    s = ws ++ t /\ all_space ws = true /\ k t = Some m /\ n = length ws + m.
Proof.
  revert n; induction s as [|x s IH]; intros n H.
  - exists [], [], n. auto.
  - simpl in H. destruct (is_space x) eqn:Hx.
    + destruct (greedy k s) as [n'|] eqn:G.
      * injection H as <-.
        destruct (IH n' eq_refl) as (ws & t & m & -> & Hws & Hk & ->).
        exists (x :: ws), t, m. simpl. rewrite Hx, Hws. auto.
      * exists [], (x :: s), n. auto.
    + exists [], (x :: s), n. auto.
Qed.

Lemma space_plus_inv (q : pattern) (s : text) (n : nat) :
  match_here (SpacePlus :: q) s = Some n ->
  exists ws t m,
    ws <> [] /\ all_space ws = true /\ s = ws ++ t /\
    match_here q t = Some m /\ n = length ws + m.
Proof.
  destruct s as [|x s]; simpl; [discriminate|].
  destruct (is_space x) eqn:Hx; [|discriminate].
  destruct (greedy (match_here q) s) as [n'|] eqn:G; [|discriminate].
  simpl. intros H; injection H as <-.
  destruct (greedy_inv _ _ _ G) as (ws & t & m & -> & Hws & Hk & ->).
  exists (x :: ws), t, m. simpl. rewrite Hx, Hws.
  repeat split; auto. discriminate.
Qed.

Lemma lit_inv (L : text) (q : pattern) (s : text) (n : nat) :
  match_here (lit L ++ q) s = Some n ->
  exists t m, s = L ++ t /\ match_here q t = Some m /\ n = length L + m.
Proof.
  rewrite match_here_lit_app.
  destruct (prefixb L s) eqn:F; [|discriminate].
  destruct (match_here q (skipn (length L) s)) as [m|] eqn:M; [|discriminate].
  simpl. intros H; injection H as <-.
  exists (skipn (length L) s), m. repeat split; auto.
  apply prefixb_skipn, F.
Qed.

Lemma match_shape (s : text) (n : nat) :
  match_here pattern1 s = Some n ->
  exists w1 w2 w3 w4 rest,
    w1 <> [] /\ w2 <> [] /\ w3 <> [] /\ w4 <> [] /\
    all_space w1 = true /\ all_space w2 = true /\
    all_space w3 = true /\ all_space w4 = true /\
    s = idiom w1 w2 w3 w4 ++ rest /\
    n = length (idiom w1 w2 w3 w4).
Proof.
  unfold pattern1. intros H.
  apply lit_inv in H as (t0 & m0 & -> & H & ->).
  apply space_plus_inv in H as (w1 & t1 & m1 & N1 & S1 & -> & H & ->).
  apply lit_inv in H as (t2 & m2 & -> & H & ->).
  apply space_plus_inv in H as (w2 & t3 & m3 & N2 & S2 & -> & H & ->).
  apply lit_inv in H as (t4 & m4 & -> & H & ->).
  apply space_plus_inv in H as (w3 & t5 & m5 & N3 & S3 & -> & H & ->).
  apply lit_inv in H as (t6 & m6 & -> & H & ->).
  apply space_plus_inv in H as (w4 & t7 & m7 & N4 & S4 & -> & H & ->).
  rewrite match_here_lit in H.
  destruct (prefixb guard_close t7) eqn:F; [|discriminate].
  injection H as <-. apply prefixb_skipn in F.
  exists w1, w2, w3, w4, (skipn (length guard_close) t7).
  repeat split; auto.
  - unfold idiom. rewrite <- !app_assoc. rewrite <- F. reflexivity.
  - unfold idiom. rewrite !length_app. reflexivity.
Qed.

(** Rule A fires only on the idiom: a match of its pattern is the token
    statement and the three parts of the guard, with a non-empty run of
    whitespace in each of the four gaps, and the length of the match is
    the length of that text. *)
Theorem rule_a_match_shape (s : text) (n : nat) :
  match_here pattern1 s = Some n ->
  exists w1 w2 w3 w4 rest,
    w1 <> [] /\ w2 <> [] /\ w3 <> [] /\ w4 <> [] /\
    all_space w1 = true /\ all_space w2 = true /\
    all_space w3 = true /\ all_space w4 = true /\
    s = idiom w1 w2 w3 w4 ++ rest /\
    n = length (idiom w1 w2 w3 w4).
Proof. apply match_shape. Qed.

Lemma rule_a_match_shape_witness :
  match_here pattern1 (example_idiom ++ str " // tail") = Some 125 /\
  exists w1 w2 w3 w4 rest,
    example_idiom ++ str " // tail" = idiom w1 w2 w3 w4 ++ rest /\
    125 = length (idiom w1 w2 w3 w4).
Proof.
  split; [vm_compute; reflexivity|].
  destruct (rule_a_match_shape (example_idiom ++ str " // tail") 125)
    as (w1 & w2 & w3 & w4 & rest & H);
    [vm_compute; reflexivity|].
  exists w1, w2, w3, w4, rest. split; apply H.
Defined.

(** ** Rule B, occurrence by occurrence *)

(** An unbordered literal at the head of [a ++ P ++ b] lies within [a]. *)
Lemma unbordered_head (P a b : text) :
  unbordered P = true -> a <> [] ->
  prefixb P (a ++ P ++ b) = true -> prefixb P a = true.
Proof.
  intros HU Ha H.
  destruct (prefixb_comparable P a (P ++ b) H) as [F|F]; [exact F|].
  apply prefixb_spec in F as [c F].
  destruct c as [|x c].
  - rewrite app_nil_r in F. subst a. apply prefixb_spec. exists [].
    rewrite app_nil_r. reflexivity.
  - exfalso.
    assert (C : clash (x :: c) P = true).
    { unfold unbordered in HU. rewrite forallb_forall in HU. apply HU.
      rewrite F at 1. apply In_proper_suffixes; [exact Ha | discriminate]. }
    apply prefixb_spec in H as [r H].
    rewrite F in H at 2. rewrite <- app_assoc in H.
    apply app_inv_head in H.
    pose proof (clash_app (x :: c) P b C) as K.
    assert (K' : prefixb (x :: c) (P ++ b) = true).
    { apply prefixb_spec. exists r. exact H. }
    congruence.
Qed.

Lemma lit_sub_app (P R : text) :
  P <> [] -> unbordered P = true ->
  forall a b,
    sub (lit P) R (a ++ P ++ b) = sub (lit P) R a ++ R ++ sub (lit P) R b.
Proof.
  intros HP HU a b.
  rewrite <- (app_nil_r (lit P)).
  remember (length a) as n eqn:Hn.
  assert (Hle : length a <= n) by lia. clear Hn.
  revert a Hle; induction n as [|n IH]; intros a Hle.
  - destruct a; [|simpl in Hle; lia].
    rewrite (head_sub_nil P [] R HP). simpl app.
    assert (M : match_here (lit P ++ []) (P ++ b) = Some (length P)).
    { rewrite app_nil_r, match_here_lit, prefixb_app. reflexivity. }
    rewrite (head_sub_hit P [] R HP _ _ M).
    rewrite skipn_app, skipn_all, Nat.sub_diag. reflexivity.
  - destruct a as [|x a].
    + apply (IH []). simpl; lia.
    + simpl in Hle.
      destruct (prefixb P ((x :: a) ++ P ++ b)) eqn:F.
      * pose proof (unbordered_head P (x :: a) b HU ltac:(discriminate) F) as G.
        apply prefixb_skipn in G.
        set (a' := skipn (length P) (x :: a)) in *.
        assert (Ha' : length a' <= n).
        { apply (f_equal (@length char)) in G. rewrite length_app in G.
          simpl in G. destruct P; [congruence | simpl in G; lia]. }
        rewrite G, <- app_assoc.
        assert (M : forall t, match_here (lit P ++ []) (P ++ t) =
                              Some (length P)).
        { intros t. rewrite app_nil_r, match_here_lit, prefixb_app.
          reflexivity. }
        rewrite !(head_sub_hit P [] R HP _ _ (M _)).
        rewrite !skipn_app, !skipn_all, !Nat.sub_diag. simpl app.
        rewrite (IH a' Ha'), <- app_assoc. reflexivity.
      * rewrite <- app_comm_cons in F |- *.
        rewrite (head_sub_miss P [] R x _ F).
        rewrite (IH a) by lia.
        rewrite (head_sub_miss P [] R x a); [reflexivity|].
        destruct (prefixb P (x :: a)) eqn:G; [|reflexivity].
        apply prefixb_spec in G as [r G].
        assert (K : prefixb P (x :: a ++ P ++ b) = true).
        { apply prefixb_spec. exists (r ++ P ++ b).
          rewrite app_comm_cons, G, <- app_assoc. reflexivity. }
        congruence.
Qed.

(** Rule B replaces an occurrence of the token statement wherever it
    stands: what comes before and after is rewritten on its own. *)
Theorem rule_b_replaces_each (a b : text) :
  rule_b (a ++ token_stmt ++ b) = rule_b a ++ replacement2 ++ rule_b b.
Proof.
  apply lit_sub_app; [exact token_stmt_nonempty | exact token_stmt_unbordered].
Qed.

(** ** What [fix_file] returns and what it leaves alone *)

(** On a file that can be read and written, [fix_file] returns whether
    the text contains the token statement. *)
Theorem fix_file_returns_occurs (fs : filesystem) (tr : list event)
    (path c : text) :
  fst (fix_file path (World (update fs path (File c true)) tr)) =
  Ok (occursb token_stmt c).
Proof.
  rewrite (fix_file_readable path
             (World (update fs path (File c true)) tr) c true
             (update_same fs path (File c true))).
  destruct (occursb token_stmt c) eqn:O.
  - pose proof (rewrite_changes c O) as D. apply text_eqb_neq in D.
    rewrite D. reflexivity.
  - rewrite (rewrite_id c O), text_eqb_refl. reflexivity.
Qed.

(** A file that cannot be written: without the token statement in it,
    [fix_file] never tries to open it for writing and reports it
    unchanged; with the statement, the open fails, an [IOFailure] is
    raised before anything is printed, and the file keeps its text. *)
Theorem fix_file_on_read_only (fs : filesystem) (tr : list event)
    (path c : text) :
  let w := World (update fs path (File c false)) tr in
  fix_file path w =
  if occursb token_stmt c
  then (Raise (IOFailure path), World (files w) (tr ++ [EOpenW path]))
  else (Ok false, World (files w) (tr ++ [EPrint (msg_no_changes path)])).
Proof.
  intros w.
  rewrite (fix_file_readable path w c false
             (update_same fs path (File c false))).
  destruct (occursb token_stmt c) eqn:O.
  - pose proof (rewrite_changes c O) as D. apply text_eqb_neq in D.
    rewrite D. reflexivity.
  - rewrite (rewrite_id c O), text_eqb_refl. reflexivity.
Qed.

Lemma fix_file_touches (path : text) (w : world) :
  let w' := snd (fix_file path w) in
  (forall q, q <> path -> files w' q = files w q) /\
  (forall q, files w' q = None <-> files w q = None) /\
  (exists evs, trace w' = trace w ++ evs) /\
  (files w' path = files w path \/
   exists c, files w path = Some (File c true) /\
             files w' path = Some (File (rewrite c) true)).
Proof.
  destruct (files w path) as [[c wr| |]|] eqn:F.
  - rewrite (fix_file_readable path w c wr F).
    destruct (text_eqb (rewrite c) c).
    + cbn. repeat split; eauto; tauto.
    + destruct wr; cbn -[rewrite].
      * split; [intros q Hq; apply update_other, Hq|].
        split.
        { intros q. unfold update. destruct (text_eqb q path) eqn:E.
          - apply text_eqb_eq in E. subst q. rewrite F.
            split; discriminate.
          - tauto. }
        split; [eauto|]. right. exists c. rewrite update_same. auto.
      * repeat split; eauto; tauto.
  - rewrite (fix_file_no_access path w F). cbn.
    repeat split; try tauto; auto. exists []. rewrite app_nil_r. reflexivity.
  - rewrite (fix_file_bad_encoding path w F). cbn.
    repeat split; try tauto; auto. exists []. rewrite app_nil_r. reflexivity.
  - unfold fix_file, bind, read_text. rewrite F. cbn.
    repeat split; try tauto; auto. exists []. rewrite app_nil_r. reflexivity.
Qed.


(** ** A run, from the file system it starts in *)

Lemma listed_In (names : list text) (q : text) :
  listed names q = true <-> In q (paths names).
Proof.
  unfold listed. rewrite existsb_exists. split.
  - intros (y & Hy & E). apply text_eqb_eq in E. subst y. exact Hy.
  - intros H. exists q. split; [exact H | apply text_eqb_refl].
Qed.

Lemma listed_not_In (names : list text) (q : text) :
  ~ In q (paths names) -> listed names q = false.
Proof.
  intros H. destruct (listed names q) eqn:E; [|reflexivity].
  apply listed_In in E. contradiction.
Qed.

Lemma listed_cons (f : text) (rest : list text) (q : text) :
  listed (f :: rest) q = text_eqb q (path_join JS_DIR f) || listed rest q.
Proof. reflexivity. Qed.

Lemma In_paths (name : text) (names : list text) :
  In name names -> In (path_join JS_DIR name) (paths names).
Proof. apply in_map. Qed.

Lemma needs_fix_ext (fs1 fs2 : filesystem) (name : text) :
  fs1 (path_join JS_DIR name) = fs2 (path_join JS_DIR name) ->
  needs_fix fs1 name = needs_fix fs2 name.
Proof. intros E. unfold needs_fix. rewrite E. reflexivity. Qed.

Lemma reports_ext (fs1 fs2 : filesystem) (name line : text) :
  fs1 (path_join JS_DIR name) = fs2 (path_join JS_DIR name) ->
  reports fs1 name line -> reports fs2 name line.
Proof. intros E. unfold reports. rewrite E. auto. Qed.

Lemma healthy_ext (fs1 fs2 : filesystem) (name : text) :
  fs1 (path_join JS_DIR name) = fs2 (path_join JS_DIR name) ->
  healthy fs1 name = healthy fs2 name.
Proof. intros E. unfold healthy. rewrite E. reflexivity. Qed.

Lemma Forall2_ext_in {A B : Type} (R1 R2 : A -> B -> Prop)
    (l : list A) (l' : list B) :
  (forall a b, In a l -> R1 a b -> R2 a b) ->
  Forall2 R1 l l' -> Forall2 R2 l l'.
Proof.
  intros H F. induction F as [|a b l l' Hab F IH]; constructor.
  - apply H; [left; reflexivity | exact Hab].
  - apply IH. intros a' b' Ha'. apply H. right. exact Ha'.
Qed.

Lemma forallb_ext_in {A : Type} (f g : A -> bool) (l : list A) :
  (forall a, In a l -> f a = g a) -> forallb f l = forallb g l.
Proof.
  induction l as [|a l IH]; intros H; [reflexivity|].
  simpl. rewrite (H a) by (left; reflexivity).
  rewrite IH; [reflexivity|]. intros a' Ha'. apply H. right. exact Ha'.
Qed.

Lemma filter_none {A : Type} (f : A -> bool) (l : list A) :
  (forall a, In a l -> f a = false) -> filter f l = [].
Proof.
  induction l as [|a l IH]; intros H; [reflexivity|].
  simpl. rewrite (H a) by (left; reflexivity).
  apply IH. intros a' Ha'. apply H. right. exact Ha'.
Qed.

(** One more file in front of a loop that is already understood. *)
Lemma loop_post_cons (f : text) (rest : list text) (count : nat)
    (w w1 : world) (c : nat) (w' : world) (line : text)
    (ws1 : list (text * text)) :
  ~ In (path_join JS_DIR f) (paths rest) ->
  (forall q, q <> path_join JS_DIR f -> files w1 q = files w q) ->
  files w1 (path_join JS_DIR f) =
    option_map migrated (files w (path_join JS_DIR f)) ->
  reports (files w) f line ->
  console (trace w1) = console (trace w) ++ [line] ->
  writes (trace w1) = writes (trace w) ++ ws1 ->
  length ws1 = (if needs_fix (files w) f then 1 else 0) ->
  loop_post rest (count + if needs_fix (files w) f then 1 else 0) w1 c w' ->
  loop_post (f :: rest) count w c w'.
Proof.
  set (p := path_join JS_DIR f).
  intros Hp A B Hline Hcon Hwr Hlen (P1 & P2 & (lines & P3 & P4) & (ws & P5 & P6)).
  assert (Agree : forall name, In name rest ->
            files w1 (path_join JS_DIR name) = files w (path_join JS_DIR name)).
  { intros name Hn. apply A. intros E. apply Hp. rewrite <- E.
    apply In_paths, Hn. }
  assert (Count : filter (needs_fix (files w1)) rest =
                  filter (needs_fix (files w)) rest).
  { apply filter_ext_in. intros name Hn. apply needs_fix_ext, Agree, Hn. }
  repeat split.
  - intros q. rewrite P1. unfold migrate. rewrite listed_cons. fold p.
    destruct (text_eqb q p) eqn:E.
    + apply text_eqb_eq in E. subst q.
      rewrite (listed_not_In rest p Hp). exact B.
    + apply text_eqb_neq in E. rewrite (A q E). reflexivity.
  - cbn [filter]. rewrite P2, Count.
    destruct (needs_fix (files w) f); cbn [length]; lia.
  - exists (line :: lines). split.
    + rewrite P3, Hcon, <- app_assoc. reflexivity.
    + constructor; [exact Hline|].
      apply (Forall2_ext_in (reports (files w1))); [|exact P4].
      intros name l Hn. apply reports_ext, Agree, Hn.
  - exists (ws1 ++ ws). split.
    + rewrite P5, Hwr, <- app_assoc. reflexivity.
    + cbn [filter]. rewrite length_app, P6, Hlen, Count.
      destruct (needs_fix (files w) f); reflexivity.
Qed.

Lemma main_loop_spec (names : list text) :
  distinct (paths names) = true ->
  forall (count : nat) (w : world) (c : nat) (w' : world),
    main_loop names count w = (Ok c, w') ->
    loop_post names count w c w'.
Proof.
  induction names as [|f rest IH]; intros D count w c w' H.
  - injection H as <- <-. repeat split.
    + simpl; lia.
    + exists []. rewrite app_nil_r. split; [reflexivity | constructor].
    + exists []. rewrite app_nil_r. split; reflexivity.
  - change (paths (f :: rest)) with (path_join JS_DIR f :: paths rest) in D.
    apply distinct_cons in D as [Hp D].
    set (p := path_join JS_DIR f) in *.
    destruct (files w p) as [n|] eqn:F.
    + rewrite (main_loop_found f rest count w n F) in H. fold p in H.
      destruct (fix_file p w) as [[b|e] w1] eqn:FF; [|discriminate].
      destruct (fix_file_ok p w b w1 FF) as (c0 & wr & F0 & Hb).
      assert (NF : needs_fix (files w) f = negb (text_eqb (rewrite c0) c0)).
      { unfold needs_fix. fold p. rewrite F0. reflexivity. }
      destruct b.
      * destruct Hb as (-> & Hc & E1). apply text_eqb_neq in Hc.
        apply (loop_post_cons f rest count w w1 c w' (msg_fixed p)
                 [(p, rewrite c0)]); fold p; subst w1; cbn [files trace];
          auto.
        -- intros q Hq. apply update_other, Hq.
        -- rewrite update_same, F0. reflexivity.
        -- unfold reports. fold p. rewrite F0, Hc. reflexivity.
        -- rewrite console_app. reflexivity.
        -- rewrite writes_app. reflexivity.
        -- rewrite NF, Hc. reflexivity.
        -- rewrite NF, Hc. cbn [negb]. rewrite Nat.add_1_r.
           apply (IH D). exact H.
      * destruct Hb as (Hc & E1). apply text_eqb_eq in Hc.
        apply (loop_post_cons f rest count w w1 c w' (msg_no_changes p) []);
          fold p; subst w1; cbn [files trace]; auto.
        -- rewrite F0. cbn. apply text_eqb_eq in Hc. rewrite Hc. reflexivity.
        -- unfold reports. fold p. rewrite F0, Hc. reflexivity.
        -- rewrite console_app. reflexivity.
        -- rewrite writes_app. reflexivity.
        -- rewrite NF, Hc. reflexivity.
        -- rewrite NF, Hc. cbn [negb]. rewrite Nat.add_0_r.
           apply (IH D). exact H.
    + rewrite (main_loop_missing f rest count w F) in H. fold p in H.
      assert (NF : needs_fix (files w) f = false).
      { unfold needs_fix. fold p. rewrite F. reflexivity. }
      apply (loop_post_cons f rest count w
               (World (files w) (trace w ++ [EPrint (msg_not_found p)]))
               c w' (msg_not_found p) []);
        fold p; cbn [files trace]; auto.
      * rewrite F. reflexivity.
      * unfold reports. fold p. rewrite F. reflexivity.
      * rewrite console_app. reflexivity.
      * rewrite writes_app. reflexivity.
      * rewrite NF. reflexivity.
      * rewrite NF, Nat.add_0_r. apply (IH D). exact H.
Qed.

(** A run that gets through the list, read off the file system it starts
    in: every listed file that exists holds its rewritten text and no other
    path has changed; the console shows, in list order, the one line that
    the state of each file calls for, and then the summary with the number
    of listed files whose text the rules change; one write per such file. *)
Theorem successful_run (w w' : world) :
  main w = (Ok tt, w') ->
  (forall q, files w' q = migrate files_to_fix (files w) q) /\
  (exists lines,
     Forall2 (reports (files w)) files_to_fix lines /\
     console (trace w') =
       console (trace w) ++ lines ++
       [msg_summary (length (filter (needs_fix (files w)) files_to_fix))]) /\
  (exists ws,
     writes (trace w') = writes (trace w) ++ ws /\
     length ws = length (filter (needs_fix (files w)) files_to_fix)).
Proof.
  unfold main, bind.
  destruct (main_loop files_to_fix 0 w) as [[c|e] w1] eqn:L; [|discriminate].
  intros H. injection H as <-.
  destruct (main_loop_spec _ files_to_fix_distinct _ _ _ _ L)
    as (P1 & P2 & (lines & P3 & P4) & (ws & P5 & P6)).
  cbn [files trace]. repeat split.
  - exact P1.
  - exists lines. split; [exact P4|].
    rewrite console_app, P3, <- app_assoc, P2. reflexivity.
  - exists ws. split; [|exact P6].
    rewrite writes_app, P5, app_nil_r. reflexivity.
Qed.

Lemma successful_run_witness :
  main (World sample_fs []) = (Ok tt, snd (main (World sample_fs []))) /\
  forall q,
    files (snd (main (World sample_fs []))) q =
    migrate files_to_fix sample_fs q.
Proof.
  split; [vm_compute; reflexivity|].
  apply (successful_run (World sample_fs []) (snd (main (World sample_fs [])))).
  vm_compute; reflexivity.
Defined.

Lemma main_loop_total (names : list text) :
  distinct (paths names) = true ->
  forall (count : nat) (w : world),
    forallb (healthy (files w)) names = true ->
    exists c w', main_loop names count w = (Ok c, w').
Proof.
  induction names as [|f rest IH]; intros D count w H.
  - exists count, w. reflexivity.
  - change (paths (f :: rest)) with (path_join JS_DIR f :: paths rest) in D.
    apply distinct_cons in D as [Hp D].
    set (p := path_join JS_DIR f) in *.
    simpl in H. apply andb_true_iff in H as [Hf Hrest].
    assert (Keep : forall w1,
              (forall q, q <> p -> files w1 q = files w q) ->
              forallb (healthy (files w1)) rest = true).
    { intros w1 A. rewrite <- Hrest. apply forallb_ext_in.
      intros name Hn. apply healthy_ext, A. intros E. apply Hp.
      rewrite <- E. apply In_paths, Hn. }
    unfold healthy in Hf. fold p in Hf.
    destruct (files w p) as [[c0 wr| |]|] eqn:F; try discriminate.
    + rewrite (main_loop_found f rest count w _ F). fold p.
      rewrite (fix_file_readable p w c0 wr F).
      destruct (text_eqb (rewrite c0) c0).
      * apply (IH D). apply Keep. reflexivity.
      * rewrite orb_false_r in Hf. subst wr.
        apply (IH D). apply Keep. intros q Hq. apply update_other, Hq.
    + rewrite (main_loop_missing f rest count w F). fold p.
      apply (IH D). apply Keep. reflexivity.
Qed.

Lemma main_loop_ok_healthy (names : list text) :
  distinct (paths names) = true ->
  forall (count : nat) (w : world) (c : nat) (w' : world),
    main_loop names count w = (Ok c, w') ->
    forallb (healthy (files w)) names = true.
Proof.
  induction names as [|f rest IH]; intros D count w c w' H; [reflexivity|].
  change (paths (f :: rest)) with (path_join JS_DIR f :: paths rest) in D.
  apply distinct_cons in D as [Hp D].
  set (p := path_join JS_DIR f) in *.
  assert (Keep : forall w1,
            (forall q, q <> p -> files w1 q = files w q) ->
            forallb (healthy (files w1)) rest = true ->
            forallb (healthy (files w)) rest = true).
  { intros w1 A K. rewrite <- K. apply forallb_ext_in.
    intros name Hn. apply healthy_ext. symmetry. apply A. intros E. apply Hp.
    rewrite <- E. apply In_paths, Hn. }
  simpl. apply andb_true_iff.
  destruct (files w p) as [n|] eqn:F.
  - rewrite (main_loop_found f rest count w n F) in H. fold p in H.
    destruct (fix_file p w) as [[b|e] w1] eqn:FF; [|discriminate].
    destruct (fix_file_ok p w b w1 FF) as (c0 & wr & F0 & Hb).
    split.
    + unfold healthy. fold p. rewrite F0. destruct b.
      * destruct Hb as (-> & _). reflexivity.
      * destruct Hb as (Hc & _). apply text_eqb_eq in Hc. rewrite Hc.
        apply orb_true_r.
    + apply (Keep w1); [|exact (IH D _ _ _ _ H)].
      destruct b.
      * destruct Hb as (_ & _ & ->). intros q Hq. apply update_other, Hq.
      * destruct Hb as (_ & ->). reflexivity.
  - rewrite (main_loop_missing f rest count w F) in H. fold p in H.
    split.
    + unfold healthy. fold p. rewrite F. reflexivity.
    + apply (Keep _ (fun q _ => eq_refl) (IH D _ _ _ _ H)).
Qed.

(** The run gets through the list exactly when every listed file that
    exists can be read as UTF-8 and, if the rules change its text, can be
    written.  Missing files never stop it. *)
Theorem main_succeeds_iff (w : world) :
  (exists w', main w = (Ok tt, w')) <->
  forallb (healthy (files w)) files_to_fix = true.
Proof.
  split.
  - intros (w' & H). unfold main, bind in H.
    destruct (main_loop files_to_fix 0 w) as [[c|e] w1] eqn:L; [|discriminate].
    exact (main_loop_ok_healthy _ files_to_fix_distinct _ _ _ _ L).
  - intros H.
    destruct (main_loop_total _ files_to_fix_distinct 0 w H) as (c & w1 & L).
    unfold main, bind. rewrite L. eexists. reflexivity.
Qed.

Lemma rewrite_twice (c : text) : rewrite (rewrite c) = rewrite c.
Proof. apply rewrite_id, rewrite_clean. Qed.

Lemma migrated_twice (n : node) : migrated (migrated n) = migrated n.
Proof. destruct n; simpl; [rewrite rewrite_twice|..]; reflexivity. Qed.

Lemma Forall2_Forall_r {A B : Type} (R : A -> B -> Prop) (P : B -> Prop)
    (l : list A) (l' : list B) :
  (forall a b, In a l -> R a b -> P b) ->
  Forall2 R l l' -> Forall P l'.
Proof.
  intros H F. induction F as [|a b l l' Hab F IH]; constructor.
  - apply (H a); [left; reflexivity | exact Hab].
  - apply IH. intros a' b' Ha'. apply H. right. exact Ha'.
Qed.

(** After a run that got through the list, every listed file is settled:
    the rules do not change it and the script can cope with it. *)
Lemma migrate_settled (names : list text) (fs fs1 : filesystem) :
  (forall q, fs1 q = migrate names fs q) ->
  forallb (healthy fs) names = true ->
  forall name, In name names ->
    needs_fix fs1 name = false /\ healthy fs1 name = true /\
    forall line, reports fs1 name line -> fixed_line line = false.
Proof.
  intros M H name Hn.
  rewrite forallb_forall in H. specialize (H name Hn).
  unfold needs_fix, healthy, reports in *.
  rewrite M. unfold migrate.
  rewrite (proj2 (listed_In names _) (In_paths name names Hn)).
  destruct (fs (path_join JS_DIR name)) as [[c wr| |]|];
    try discriminate; cbn [option_map migrated].
  - rewrite rewrite_twice, text_eqb_refl, orb_true_r.
    repeat split. intros line ->. reflexivity.
  - repeat split. intros line ->. reflexivity.
Qed.

(** Running the script again after a run that got through the list: the
    second run gets through as well, reports no file fixed, writes nothing
    and leaves every path as the first run left it. *)
Theorem second_run (w w' : world) :
  main w = (Ok tt, w') ->
  exists w'',
    main w' = (Ok tt, w'') /\
    (forall q, files w'' q = files w' q) /\
    writes (trace w'') = writes (trace w') /\
    exists lines,
      console (trace w'') = console (trace w') ++ lines ++ [msg_summary 0] /\
      length lines = 9 /\
      Forall (fun line => fixed_line line = false) lines.
Proof.
  unfold main, bind.
  destruct (main_loop files_to_fix 0 w) as [[c|e] w1] eqn:L; [|discriminate].
  intros H. injection H as <-.
  destruct (main_loop_spec _ files_to_fix_distinct _ _ _ _ L) as (P1 & _).
  pose proof (main_loop_ok_healthy _ files_to_fix_distinct _ _ _ _ L) as HH.
  pose proof (migrate_settled files_to_fix (files w) (files w1) P1 HH) as S.
  set (w' := World (files w1) (trace w1 ++ [EPrint (msg_summary c)])).
  assert (H2 : forallb (healthy (files w')) files_to_fix = true).
  { apply forallb_forall. intros name Hn. apply (S name Hn). }
  destruct (main_loop_total _ files_to_fix_distinct 0 w' H2) as (c2 & w2 & L2).
  destruct (main_loop_spec _ files_to_fix_distinct _ _ _ _ L2)
    as (Q1 & Q2 & (lines & Q3 & Q4) & (ws & Q5 & Q6)).
  assert (Z : filter (needs_fix (files w')) files_to_fix = []).
  { apply filter_none. intros name Hn. apply (S name Hn). }
  rewrite Z in Q2, Q6. cbn [length] in Q2, Q6. subst c2.
  subst w'. cbn [files trace] in *.
  rewrite L2. eexists. split; [reflexivity|]. cbn [files trace].
  repeat split.
  - intros q. rewrite Q1. unfold migrate. cbn [files].
    destruct (listed files_to_fix q) eqn:E; [|reflexivity].
    rewrite P1. unfold migrate. rewrite E.
    destruct (files w q) as [n|]; [|reflexivity].
    cbn [option_map]. rewrite migrated_twice. reflexivity.
  - destruct ws; [|discriminate Q6].
    rewrite writes_app, Q5, !app_nil_r. reflexivity.
  - exists lines. repeat split.
    + rewrite console_app, Q3, <- app_assoc. reflexivity.
    + apply Forall2_length in Q4. rewrite <- Q4. reflexivity.
    + apply (Forall2_Forall_r _ _ _ _ (fun name line Hn => proj2 (proj2 (S name Hn)) line) Q4).
Qed.

Lemma second_run_witness :
  main (World sample_fs []) = (Ok tt, snd (main (World sample_fs []))) /\
  exists w'',
    main (snd (main (World sample_fs []))) = (Ok tt, w'') /\
    forall q, files w'' q = files (snd (main (World sample_fs []))) q.
Proof.
  split; [vm_compute; reflexivity|].
  destruct (second_run (World sample_fs []) (snd (main (World sample_fs []))))
    as (w'' & H1 & H2 & _); [vm_compute; reflexivity|].
  exists w''. split; [exact H1 | exact H2].
Defined.

Lemma main_loop_frame (names : list text) :
  forall (count : nat) (w : world),
    let w' := snd (main_loop names count w) in
    (forall q, ~ In q (paths names) -> files w' q = files w q) /\
    (forall q, files w' q = None <-> files w q = None) /\
    (exists evs, trace w' = trace w ++ evs).
Proof.
  induction names as [|f rest IH]; intros count w.
  - cbn. repeat split; try tauto. exists []. rewrite app_nil_r. reflexivity.
  - change (paths (f :: rest)) with (path_join JS_DIR f :: paths rest).
    set (p := path_join JS_DIR f).
    destruct (files w p) as [n|] eqn:F.
    + rewrite (main_loop_found f rest count w n F). fold p.
      destruct (fix_file_touches p w) as (T1 & T2 & (evs1 & T3) & _).
      destruct (fix_file p w) as [[b|e] w1]; cbn [snd] in T1, T2, T3 |- *.
      * destruct (IH (if b then S count else count) w1)
          as (I1 & I2 & (evs & I3)).
        repeat split.
        -- intros q Hq. rewrite I1 by (intros HI; apply Hq; right; exact HI).
           apply T1. intros E. apply Hq. left. symmetry. exact E.
        -- intros Hq. apply T2, I2, Hq.
        -- intros Hq. apply I2, T2, Hq.
        -- exists (evs1 ++ evs). rewrite I3, T3, app_assoc. reflexivity.
      * repeat split.
        -- intros q Hq. apply T1. intros E. apply Hq. left. symmetry. exact E.
        -- apply T2.
        -- apply T2.
        -- exists evs1. exact T3.
    + rewrite (main_loop_missing f rest count w F). fold p.
      destruct (IH count
                  (World (files w) (trace w ++ [EPrint (msg_not_found p)])))
        as (I1 & I2 & (evs & I3)).
      cbn [files trace] in I1, I2, I3.
      repeat split.
      * intros q Hq. apply I1. intros HI; apply Hq; right; exact HI.
      * apply I2.
      * apply I2.
      * exists ([EPrint (msg_not_found p)] ++ evs).
        rewrite I3, app_assoc. reflexivity.
Qed.

(** However the run ends, with the summary or with an exception: a path
    that is not one of the nine listed ones holds what it held, no file has
    been created or deleted, and nothing has been taken from the trace. *)
Theorem run_frame (w : world) :
  let w' := snd (main w) in
  (forall q, listed files_to_fix q = false -> files w' q = files w q) /\
  (forall q, files w' q = None <-> files w q = None) /\
  (exists evs, trace w' = trace w ++ evs).
Proof.
  destruct (main_loop_frame files_to_fix 0 w) as (I1 & I2 & (evs & I3)).
  unfold main, bind.
  destruct (main_loop files_to_fix 0 w) as [[c|e] w1];
    cbn [snd files trace] in *.
  - repeat split.
    + intros q Hq. apply I1. intros HI. apply listed_In in HI. congruence.
    + apply I2.
    + apply I2.
    + exists (evs ++ [EPrint (msg_summary c)]).
      unfold print, log. cbn [snd trace].
      rewrite I3, app_assoc. reflexivity.
  - repeat split.
    + intros q Hq. apply I1. intros HI. apply listed_In in HI. congruence.
    + apply I2.
    + apply I2.
    + exists evs. exact I3.
Qed.





(** ** The transformation, piece by piece *)

(** A block [B] in front of [v] that no match reaches into, and that the
    substitution turns into [Out]: what stands before the block is
    rewritten on its own. *)
Lemma sub_block (p : pattern) (R B Out v : text) :
  match_here p [] = None ->
  (forall s, match_here p s <> Some 0) ->
  (forall u, u <> [] -> match_here p (u ++ B ++ v) = match_here p u) ->
  sub p R (B ++ v) = Out ++ sub p R v ->
  forall u, sub p R (u ++ B ++ v) = sub p R u ++ Out ++ sub p R v.
Proof.
  intros H0 Hpos HA HB u.
  remember (length u) as n eqn:Hn.
  assert (Hle : length u <= n) by lia. clear Hn.
  revert u Hle; induction n as [|n IH]; intros u Hle.
  - destruct u; [|simpl in Hle; lia].
    simpl app. rewrite (sub_nil p R H0). exact HB.
  - destruct u as [|x u].
    + simpl app. rewrite (sub_nil p R H0). exact HB.
    + pose proof (HA (x :: u) ltac:(discriminate)) as E.
      destruct (match_here p (x :: u)) as [[|m]|] eqn:M.
      * exfalso. exact (Hpos _ M).
      * rewrite (sub_hit p R _ _ E), (sub_hit p R _ _ M).
        pose proof (match_here_le _ _ _ M) as Hm.
        rewrite skipn_app.
        replace (S m - length (x :: u)) with 0 by lia.
        rewrite skipn_0, IH, <- app_assoc; [reflexivity|].
        rewrite length_skipn. simpl in Hle |- *. lia.
      * rewrite <- app_comm_cons in E |- *.
        rewrite (sub_miss p R x _ E), (sub_miss p R x u M).
        rewrite IH by (simpl in Hle; lia). reflexivity.
Qed.

Lemma prefixb_app_l (P u t : text) :
  prefixb P u = true -> prefixb P (u ++ t) = true.
Proof.
  intros H. apply prefixb_spec in H as [r ->]. rewrite <- app_assoc.
  apply prefixb_app.
Qed.

(** Rule B and a block that the token statement neither occurs in nor
    runs into. *)
Lemma lit_head_stable (P S u v : text) :
  apart P S = true -> u <> [] ->
  prefixb P (u ++ S ++ v) = prefixb P u.
Proof.
  intros HA Hu.
  destruct (prefixb P u) eqn:F; [apply prefixb_app_l, F|].
  destruct (prefixb P (u ++ S ++ v)) eqn:G; [|reflexivity].
  exfalso.
  destruct (prefixb_comparable P u (S ++ v) G) as [K|K]; [congruence|].
  apply prefixb_spec in K as [e K].
  destruct e as [|x e].
  - rewrite app_nil_r in K. subst u.
    assert (T : prefixb P P = true).
    { apply prefixb_spec. exists []. rewrite app_nil_r. reflexivity. }
    congruence.
  - assert (C : clash (x :: e) S = true).
    { unfold apart in HA. rewrite forallb_forall in HA. apply HA.
      rewrite K. apply In_proper_suffixes; [exact Hu | discriminate]. }
    apply prefixb_spec in G as [r G].
    rewrite K, <- app_assoc in G. apply app_inv_head in G.
    pose proof (clash_app (x :: e) S v C) as N.
    assert (Y : prefixb (x :: e) (S ++ v) = true).
    { apply prefixb_spec. exists r. exact G. }
    congruence.
Qed.

Lemma lit_sub_over (P R S v : text) :
  closed_under P S = true ->
  sub (lit P) R (S ++ v) = S ++ sub (lit P) R v.
Proof.
  unfold closed_under. induction S as [|x S IH]; intros H; [reflexivity|].
  simpl suffixes in H. simpl forallb in H.
  apply andb_true_iff in H as [H1 H2].
  rewrite <- app_comm_cons. rewrite sub_miss.
  - rewrite (IH H2). reflexivity.
  - rewrite match_here_lit.
    change (x :: S ++ v) with ((x :: S) ++ v).
    rewrite clash_app; [reflexivity|]. rewrite clash_sym. exact H1.
Qed.

Lemma token_stmt_closed1 : closed_under token_stmt replacement1 = true.
Proof. vm_compute; reflexivity. Qed.

Lemma pattern2_never_empty (s : text) : match_here pattern2 s <> Some 0.
Proof.
  unfold pattern2. rewrite match_here_lit.
  destruct (prefixb token_stmt s); discriminate.
Qed.

Lemma rule_b_over_replacement1 (u v : text) :
  rule_b (u ++ replacement1 ++ v) = rule_b u ++ replacement1 ++ rule_b v.
Proof.
  unfold rule_b. apply sub_block.
  - reflexivity.
  - apply pattern2_never_empty.
  - intros u' Hu. unfold pattern2. rewrite !match_here_lit.
    rewrite (lit_head_stable token_stmt replacement1 u' v
               token_stmt_apart1 Hu).
    reflexivity.
  - apply lit_sub_over, token_stmt_closed1.
Qed.

(** *** No match of rule A reaches into a later token statement *)

Lemma tail_free_app (P s1 s2 : text) :
  tail_free P s1 -> tail_free P s2 -> tail_free P (s1 ++ s2).
Proof.
  intros F1 F2 u d E Hd rest.
  apply app_eq_app in E as [l [[E1 E2]|[E1 E2]]].
  - destruct l as [|x l].
    + simpl in E2. subst d. apply (F2 [] s2 eq_refl Hd).
    + subst d. rewrite <- app_assoc.
      apply (F1 u (x :: l) E1). discriminate.
  - apply (F2 l d E2 Hd).
Qed.

Lemma tail_free_lit (P L : text) :
  closed_under P L = true -> tail_free P L.
Proof.
  intros H u d E Hd rest.
  unfold closed_under in H. rewrite forallb_forall in H.
  apply clash_app. rewrite clash_sym. apply H.
  rewrite E. apply In_suffixes, Hd.
Qed.

Lemma all_space_app (a b : text) :
  all_space (a ++ b) = all_space a && all_space b.
Proof. apply forallb_app. Qed.

Lemma token_stmt_head : exists P', token_stmt = 99%N :: P'.
Proof. eexists; reflexivity. Qed.

Lemma tail_free_space (ws : text) :
  all_space ws = true -> tail_free token_stmt ws.
Proof.
  intros H u d E Hd rest. subst ws.
  rewrite all_space_app in H. apply andb_true_iff in H as [_ H].
  destruct d as [|x d]; [congruence|].
  simpl in H. apply andb_true_iff in H as [Hx _].
  destruct token_stmt_head as (P' & ->). cbn [prefixb app].
  destruct (char_eqb 99%N x) eqn:C; [|reflexivity].
  apply char_eqb_eq in C. subst x. discriminate Hx.
Qed.

Lemma guard_parts_closed :
  closed_under token_stmt guard_open = true /\
  closed_under token_stmt guard_redirect = true /\
  closed_under token_stmt guard_return = true /\
  closed_under token_stmt guard_close = true.
Proof. repeat split; vm_compute; reflexivity. Qed.

(** Inside the idiom the token statement starts nowhere but at the
    beginning. *)
Lemma idiom_inner_free (w1 w2 w3 w4 : text) :
  all_space w1 = true -> all_space w2 = true ->
  all_space w3 = true -> all_space w4 = true ->
  forall u d, idiom w1 w2 w3 w4 = u ++ d -> u <> [] -> d <> [] ->
  forall rest, prefixb token_stmt (d ++ rest) = false.
Proof.
  intros S1 S2 S3 S4 u d E Hu Hd rest.
  destruct guard_parts_closed as (C2 & C3 & C4 & C5).
  assert (G : tail_free token_stmt
                (w1 ++ guard_open ++ w2 ++ guard_redirect ++ w3 ++
                 guard_return ++ w4 ++ guard_close)).
  { apply tail_free_app; [apply tail_free_space, S1|].
    apply tail_free_app; [apply tail_free_lit, C2|].
    apply tail_free_app; [apply tail_free_space, S2|].
    apply tail_free_app; [apply tail_free_lit, C3|].
    apply tail_free_app; [apply tail_free_space, S3|].
    apply tail_free_app; [apply tail_free_lit, C4|].
    apply tail_free_app; [apply tail_free_space, S4|].
    apply tail_free_lit, C5. }
  unfold idiom in E.
  apply app_eq_app in E as [l [[E1 E2]|[E1 E2]]].
  - destruct l as [|x l].
    + simpl in E2. subst d. apply (G [] _ eq_refl Hd).
    + subst d. rewrite <- app_assoc.
      apply clash_app. rewrite clash_sym.
      pose proof token_stmt_unbordered as U.
      unfold unbordered in U. rewrite forallb_forall in U. apply U.
      rewrite E1. apply In_proper_suffixes; [exact Hu | discriminate].
  - apply (G l d E2 Hd).
Qed.

Lemma pattern1_head_stable (u t : text) :
  u <> [] ->
  match_here pattern1 (u ++ token_stmt ++ t) = match_here pattern1 u.
Proof.
  intros Hu.
  destruct (match_here pattern1 u) as [n|] eqn:M.
  - destruct (match_shape u n M)
      as (w1 & w2 & w3 & w4 & rest & N1 & N2 & N3 & N4 &
          S1 & S2 & S3 & S4 & -> & ->).
    rewrite <- app_assoc. apply match_idiom; assumption.
  - destruct (match_here pattern1 (u ++ token_stmt ++ t)) as [n|] eqn:M2;
      [|reflexivity].
    exfalso.
    destruct (match_shape _ n M2)
      as (w1 & w2 & w3 & w4 & rest & N1 & N2 & N3 & N4 &
          S1 & S2 & S3 & S4 & E & _).
    apply app_eq_app in E as [l [[E1 E2]|[E1 E2]]].
    + subst u.
      rewrite (match_idiom w1 w2 w3 w4 l N1 N2 N3 N4 S1 S2 S3 S4) in M.
      discriminate M.
    + destruct l as [|x l].
      * rewrite app_nil_r in E1. subst u.
        pose proof (match_idiom w1 w2 w3 w4 [] N1 N2 N3 N4 S1 S2 S3 S4) as K.
        rewrite app_nil_r in K. congruence.
      * pose proof (idiom_inner_free w1 w2 w3 w4 S1 S2 S3 S4 u (x :: l)
                      E1 Hu ltac:(discriminate) rest) as K.
        rewrite <- E2, prefixb_app in K. discriminate K.
Qed.

Lemma pattern1_never_empty (s : text) : match_here pattern1 s <> Some 0.
Proof.
  intros H. rewrite pattern1_head in H.
  destruct (head_match token_stmt guard token_stmt_nonempty s 0 H) as [_ K].
  lia.
Qed.

Lemma pattern1_nil : match_here pattern1 [] = None.
Proof. reflexivity. Qed.

Lemma rule_a_unfold : rule_a = sub pattern1 replacement1.
Proof. reflexivity. Qed.

Lemma rule_a_over_idiom (w1 w2 w3 w4 a b : text) :
  w1 <> [] -> w2 <> [] -> w3 <> [] -> w4 <> [] ->
  all_space w1 = true -> all_space w2 = true ->
  all_space w3 = true -> all_space w4 = true ->
  rule_a (a ++ idiom w1 w2 w3 w4 ++ b) =
  rule_a a ++ replacement1 ++ rule_a b.
Proof.
  intros N1 N2 N3 N4 S1 S2 S3 S4. rewrite rule_a_unfold.
  apply sub_block.
  - exact pattern1_nil.
  - exact pattern1_never_empty.
  - intros u Hu. unfold idiom. rewrite <- app_assoc.
    apply pattern1_head_stable, Hu.
  - rewrite <- rule_a_unfold.
    rewrite (rule_a_hit _ _
               (match_idiom w1 w2 w3 w4 b N1 N2 N3 N4 S1 S2 S3 S4)).
    rewrite skipn_app, skipn_all, Nat.sub_diag. reflexivity.
Qed.

Lemma rule_a_over_bare (a b : text) :
  match_here guard b = None ->
  rule_a (a ++ token_stmt ++ b) = rule_a a ++ token_stmt ++ rule_a b.
Proof.
  intros Hb. rewrite rule_a_unfold.
  apply sub_block.
  - exact pattern1_nil.
  - exact pattern1_never_empty.
  - intros u Hu. apply pattern1_head_stable, Hu.
  - rewrite <- rule_a_unfold.
    apply rule_a_skip. rewrite pattern1_head, match_lit_app, Hb. reflexivity.
Qed.

(** The transformation replaces the guarded idiom by [replacement1]
    wherever it stands, whatever the whitespace in its four gaps: the
    text before and the text after are rewritten on their own. *)
Theorem rewrite_idiom_in_context (w1 w2 w3 w4 a b : text) :
  w1 <> [] -> w2 <> [] -> w3 <> [] -> w4 <> [] ->
  all_space w1 = true -> all_space w2 = true ->
  all_space w3 = true -> all_space w4 = true ->
  rewrite (a ++ idiom w1 w2 w3 w4 ++ b) =
  rewrite a ++ replacement1 ++ rewrite b.
Proof.
  intros N1 N2 N3 N4 S1 S2 S3 S4. unfold rewrite.
  rewrite (rule_a_over_idiom w1 w2 w3 w4 a b N1 N2 N3 N4 S1 S2 S3 S4).
  apply rule_b_over_replacement1.
Qed.

Lemma rewrite_idiom_in_context_witness :
  all_space [LF; 32%N] = true /\
  rewrite (str "function f() { " ++ idiom [LF; 32%N] [LF] [9%N] [LF] ++
           str " go(token); }") =
  rewrite (str "function f() { ") ++ replacement1 ++
  rewrite (str " go(token); }").
Proof.
  split; [reflexivity|].
  apply (rewrite_idiom_in_context [LF; 32%N] [LF] [9%N] [LF]
           (str "function f() { ") (str " go(token); }"));
    solve [discriminate | reflexivity].
Defined.

(** The transformation replaces a token statement that no guard follows
    by [replacement2] wherever it stands: the text before and the text
    after are rewritten on their own. *)
Theorem rewrite_bare_statement (a b : text) :
  match_here guard b = None ->
  rewrite (a ++ token_stmt ++ b) = rewrite a ++ replacement2 ++ rewrite b.
Proof.
  intros Hb. unfold rewrite.
  rewrite (rule_a_over_bare a b Hb).
  apply lit_sub_app; [exact token_stmt_nonempty | exact token_stmt_unbordered].
Qed.

Lemma rewrite_bare_statement_witness :
  match_here guard (str " fetch(url, token);") = None /\
  rewrite (str "{ " ++ token_stmt ++ str " fetch(url, token);") =
  rewrite (str "{ ") ++ replacement2 ++ rewrite (str " fetch(url, token);").
Proof.
  split; [vm_compute; reflexivity|].
  apply (rewrite_bare_statement (str "{ ") (str " fetch(url, token);")).
  vm_compute; reflexivity.
Defined.
